(** * os-find: a shallow embedding of [find.cpp]

    The program walks a directory tree breadth first, filters the entries
    that are not directories with [checkStat] and either prints the matched
    paths or hands them to one child process.

    The embedding keeps the structure of the source: one definition per
    function of [find.cpp], under the same name.  System calls are answered
    by a [world] (the directory tree, [fork] and [waitpid]); what the process
    does to the outside is recorded as a chronological [trace] of [event]s,
    threaded through a small state-and-exit monad [M]. *)

From Stdlib Require Import ZArith List String Ascii Bool Lia PeanoNat.
From Stdlib Require Import DecimalString.
From Stdlib Require Import DecimalPos.
Import ListNotations.

Local Open Scope string_scope.
Local Open Scope Z_scope.

(** ** Machine integers (LP64: [int] has 32 bits, [long long], [off_t] 64,
       [ino_t] and [nlink_t] are unsigned 64-bit) *)

Definition INT_MIN : Z := - 2 ^ 31.
Definition INT_MAX : Z := 2 ^ 31 - 1.
Definition LLONG_MIN : Z := - 2 ^ 63.
Definition LLONG_MAX : Z := 2 ^ 63 - 1.

(** Conversion of a [long long] to [int]: the value modulo 2^32, read as a
    two's complement number. *)
Definition to_int (v : Z) : Z := (v + 2 ^ 31) mod 2 ^ 32 - 2 ^ 31.

(** Conversion of an [int] to an unsigned 64-bit type ([ino_t] and, on
    x86-64, [nlink_t]): the value modulo 2^64. *)
Definition to_u64 (v : Z) : Z := v mod 2 ^ 64.

(** ** The data of the source *)

(** [enum sizeArea]. *)
Inductive sizeArea : Type := EMPTY | LESS | GREATER | EQUAL.

(** [struct Request]. *)
Record Request : Type := mkRequest {
  filePath : string;
  inumNeeded : bool;
  nameNeeded : bool;
  sizeNeeded : bool;
  nlinksNeeded : bool;
  execNeeded : bool;
  inodeNumber : Z;
  name : string;
  executionPath : string;
  nlinkNumber : Z;
  size : Z;
  neededSizeArea : sizeArea
}.

(** [Request request;] in [main]: the flags and [neededSizeArea] have
    default member initialisers, the strings are empty.  The three numbers
    are left indeterminate by the source; they are only ever read under
    their [...Needed] flag, and 0 stands for them here. *)
Definition default_Request : Request :=
  {| filePath := ""; inumNeeded := false; nameNeeded := false;
     sizeNeeded := false; nlinksNeeded := false; execNeeded := false;
     inodeNumber := 0; name := ""; executionPath := "";
     nlinkNumber := 0; size := 0; neededSizeArea := EMPTY |}.

Definition set_filePath (r : Request) (v : string) : Request :=
  mkRequest v (inumNeeded r) (nameNeeded r) (sizeNeeded r) (nlinksNeeded r)
    (execNeeded r) (inodeNumber r) (name r) (executionPath r)
    (nlinkNumber r) (size r) (neededSizeArea r).

Definition set_inodeNumber (r : Request) (v : Z) : Request :=
  mkRequest (filePath r) (inumNeeded r) (nameNeeded r) (sizeNeeded r)
    (nlinksNeeded r) (execNeeded r) v (name r) (executionPath r)
    (nlinkNumber r) (size r) (neededSizeArea r).

Definition set_nlinkNumber (r : Request) (v : Z) : Request :=
  mkRequest (filePath r) (inumNeeded r) (nameNeeded r) (sizeNeeded r)
    (nlinksNeeded r) (execNeeded r) (inodeNumber r) (name r)
    (executionPath r) v (size r) (neededSizeArea r).

(** [request.nameNeeded = true; request.name = value;] *)
Definition set_name (r : Request) (v : string) : Request :=
  mkRequest (filePath r) (inumNeeded r) true (sizeNeeded r) (nlinksNeeded r)
    (execNeeded r) (inodeNumber r) v (executionPath r)
    (nlinkNumber r) (size r) (neededSizeArea r).

Definition set_neededSizeArea (r : Request) (v : sizeArea) : Request :=
  mkRequest (filePath r) (inumNeeded r) (nameNeeded r) (sizeNeeded r)
    (nlinksNeeded r) (execNeeded r) (inodeNumber r) (name r)
    (executionPath r) (nlinkNumber r) (size r) v.

Definition set_size (r : Request) (v : Z) : Request :=
  mkRequest (filePath r) (inumNeeded r) (nameNeeded r) (sizeNeeded r)
    (nlinksNeeded r) (execNeeded r) (inodeNumber r) (name r)
    (executionPath r) (nlinkNumber r) v (neededSizeArea r).

(** [request.execNeeded = true; request.executionPath = value;] *)
Definition set_exec (r : Request) (v : string) : Request :=
  mkRequest (filePath r) (inumNeeded r) (nameNeeded r) (sizeNeeded r)
    (nlinksNeeded r) true (inodeNumber r) (name r) v
    (nlinkNumber r) (size r) (neededSizeArea r).

(** The fields of [struct stat] the program reads. *)
Record stat : Type := mkStat {
  st_mode : Z;
  st_ino : Z;
  st_nlink : Z;
  st_size : Z
}.

(** [struct stat sb{};] *)
Definition zero_stat : stat :=
  {| st_mode := 0; st_ino := 0; st_nlink := 0; st_size := 0 |}.

Definition S_IFMT : Z := 61440.   (* 0170000 *)
Definition S_IFDIR : Z := 16384.  (* 0040000 *)
Definition S_IFREG : Z := 32768.  (* 0100000 *)

Definition S_ISDIR (m : Z) : bool := Z.land m S_IFMT =? S_IFDIR.

(** An open directory stream: its identity and the names [readdir] has
    still to return.  A [DIR*] is an [option DIR], [None] being [nullptr]. *)
Record DIR : Type := mkDIR {
  dd_id : nat;
  dd_buf : list string
}.

(** [struct BfsNode]. *)
Record BfsNode : Type := mkBfsNode {
  dir : option DIR;
  path : string
}.

(** ** The world outside the process *)

(** What [readdir] does with a null stream is not defined by POSIX.  The C
    libraries in use dereference the pointer, which kills the process; the
    other conceivable answer is an immediate end of stream. *)
Inductive null_stream : Type := NullFaults | NullEndOfStream.

Record world : Type := mkWorld {
  (** the names a directory stream on this path returns, in [readdir]
      order ("." and ".." included when the file system lists them);
      [None] when [opendir] fails on the path *)
  fs_dirs : string -> option (list string);
  (** the link-level metadata of a path; [None] when [lstat] fails *)
  fs_lstat : string -> option stat;
  readdir_null : null_stream;
  (** whether [fork] creates a child *)
  fork_ok : bool;
  (** [WEXITSTATUS] of the child as [waitpid] reports it; [None] when
      [waitpid] fails *)
  wait_status : option Z
}.

(** ** The process: observable events, exit and fault *)

Inductive event : Type :=
| EvStderr (context : string)   (* printErr: "ERROR <context>: <strerror>" *)
| EvStdout (line : string)      (* one line on standard output *)
| EvOpendir (p : string) (stream : option nat)
| EvClosedir (stream : option nat)
| EvFork (child : bool)
| EvExecve (prog : string) (argv envp : list string).

Record process : Type := mkProcess {
  trace : list event;
  next_stream : nat
}.

Definition start : process := {| trace := []; next_stream := 0 |}.

Inductive outcome (A : Type) : Type :=
| Ret (a : A)            (* the call returns [a] *)
| Exited (status : Z)    (* [exit(status)] was called *)
| Faulted.               (* the process was killed by an invalid access *)
Arguments Ret {A} a.
Arguments Exited {A} status.
Arguments Faulted {A}.

Definition M (A : Type) : Type := process -> outcome A * process.

Definition ret {A} (a : A) : M A := fun p => (Ret a, p).

Definition bind {A B} (m : M A) (k : A -> M B) : M B :=
  fun p =>
    match m p with
    | (Ret a, p') => k a p'
    | (Exited c, p') => (Exited c, p')
    | (Faulted, p') => (Faulted, p')
    end.

Notation "x <- m ;; k" := (bind m (fun x => k))
  (at level 61, m at next level, right associativity).
Notation "' pat <- m ;; k" :=
  (bind m (fun x => match x with pat => k end))
  (at level 61, pat pattern, m at next level, right associativity).
Notation "m ;; k" := (bind m (fun _ => k))
  (at level 61, right associativity).

Definition emit (e : event) : M unit :=
  fun p => (Ret tt, {| trace := trace p ++ [e]; next_stream := next_stream p |}).

Definition exit {A} (status : Z) : M A := fun p => (Exited status, p).
Definition fault {A} : M A := fun p => (Faulted, p).

Definition EXIT_SUCCESS : Z := 0.
Definition EXIT_FAILURE : Z := 1.

(** [printErr]. *)
Definition printErr (message : string) : M unit := emit (EvStderr message).

(** ** Numbers on the command line *)

Definition isspace (c : ascii) : bool :=
  let n := nat_of_ascii c in
  ((n =? 32) || ((9 <=? n) && (n <=? 13)))%nat.

Definition digit_of (c : ascii) : option Z :=
  let n := nat_of_ascii c in
  if ((48 <=? n) && (n <=? 57))%nat then Some (Z.of_nat n - 48) else None.

Fixpoint skip_space (s : string) : string :=
  match s with
  | String c r => if isspace c then skip_space r else s
  | EmptyString => s
  end.

Fixpoint read_digits (s : string) (acc : Z) : Z :=
  match s with
  | String c r =>
      match digit_of c with
      | Some d => read_digits r (acc * 10 + d)
      | None => acc
      end
  | EmptyString => acc
  end.

Inductive stoll_result : Type :=
| Converted (v : Z)
| InvalidArgument
| OutOfRange.

(** [std::stoll(str)] with its defaults (base 10, no position out): leading
    white space is skipped, a sign is optional, the longest run of digits is
    converted and whatever follows is ignored.  No digit at all throws
    [invalid_argument], a value outside [long long] throws [out_of_range]. *)
Definition stoll (str : string) : stoll_result :=
  let s := skip_space str in
  let '(negative, s) :=
    match s with
    | String "-" r => (true, r)
    | String "+" r => (false, r)
    | _ => (false, s)
    end in
  match s with
  | String c _ =>
      match digit_of c with
      | Some _ =>
          let v := read_digits s 0 in
          let v := if negative then - v else v in
          if (LLONG_MIN <=? v) && (v <=? LLONG_MAX)
          then Converted v else OutOfRange
      | None => InvalidArgument
      end
  | EmptyString => InvalidArgument
  end.

(** [parseNumber]: the [long long] is stored in an [int].  [e.what()] of
    both exceptions is, with libstdc++, the name of the throwing function. *)
Definition parseNumber (number : string) : M Z :=
  match stoll number with
  | Converted v => ret (to_int v)
  | _ => printErr "stoll" ;; exit EXIT_FAILURE
  end.

(** [correctPath].  [back()] of an empty string is undefined; the walk
    calls it with the path of a stream that returned a name, and no stream
    opens on the empty path. *)
Definition correctPath (p : string) : string :=
  match get (length p - 1) p with
  | Some "/"%char => p
  | _ => p ++ "/"
  end.

(** ** [parseArgs] *)

(** [value[0]]: the terminating NUL when the string is empty. *)
Definition first_char (value : string) : ascii :=
  match get 0 value with
  | Some c => c
  | None => zero
  end.

(** [value.substr(1)]. *)
Definition substr1 (value : string) : string :=
  substring 1 (length value - 1) value.

(** One round of the [for] loop of [parseArgs], on [argv[i]] and
    [argv[i + 1]]. *)
Definition parseArg (request : Request) (argument value : string) : M Request :=
  if (argument =? "-inum")%string || (argument =? "-nlinks")%string then
    numericValue <- parseNumber value ;;
    if (argument =? "-inum")%string
    then ret (set_inodeNumber request (to_u64 numericValue))
    else ret (set_nlinkNumber request (to_u64 numericValue))
  else if (argument =? "-name")%string then ret (set_name request value)
  else if (argument =? "-path")%string then ret (set_name request value)
  else if (argument =? "-size")%string then
    area <- (if (first_char value =? "-")%char then ret LESS
             else if (first_char value =? "=")%char then ret EQUAL
             else if (first_char value =? "+")%char then ret GREATER
             else printErr "Invalid value for -size argument" ;;
                  exit EXIT_FAILURE) ;;
    number <- parseNumber (substr1 value) ;;
    ret (set_size (set_neededSizeArea request area) number)
  else if (argument =? "-exec")%string then ret (set_exec request value)
  else ret request.

(** The loop [for (i = 2; i < argc; i += 2)] over what follows [argv[1]].
    A last argument without a partner would make [argv[i + 1]] the null
    pointer that ends [argv]; [main] rules this out before the call. *)
Fixpoint parseArgs_loop (rest : list string) (request : Request) : M Request :=
  match rest with
  | [] => ret request
  | [_] => fault
  | argument :: value :: rest' =>
      request' <- parseArg request argument value ;;
      parseArgs_loop rest' request'
  end.

Definition parseArgs (argv : list string) : M Request :=
  request <- parseArgs_loop (skipn 2 argv) default_Request ;;
  ret (set_filePath request (nth 1 argv "")).

(** ** [execute] *)

Definition decimal (d : Z) : string := NilZero.string_of_int (Z.to_int d).

(** [EvExecve] is what the child does; the rest is the parent. *)
Definition execute (w : world) (command : string) (args : list string) : M unit :=
  if fork_ok w then
    emit (EvFork true) ;;
    emit (EvExecve command (command :: args) []) ;;
    match wait_status w with
    | None => printErr "Error while waiting"
    | Some d => emit (EvStdout ("Process finished with exit code " ++ decimal d))
    end
  else
    emit (EvFork false) ;;
    printErr "Unable to create child process" ;;
    exit EXIT_FAILURE.

(** ** [checkStat] *)

Definition checkStat (request : Request) (sb : stat) (nm : string) : bool :=
  if inumNeeded request && negb (st_ino sb =? inodeNumber request) then false
  else if nlinksNeeded request && negb (st_nlink sb =? nlinkNumber request) then false
  else if nameNeeded request && negb (nm =? name request)%string then false
  else if sizeNeeded request then
    match neededSizeArea request with
    | LESS => if st_size sb >=? size request then false else true
    | EQUAL => if negb (st_size sb =? size request) then false else true
    | GREATER => if st_size sb <=? size request then false else true
    | EMPTY => true
    end
  else true.

(** ** System calls on directories *)

(** What a directory stream on [p] holds, if one can be opened: an empty
    path names no file ([ENOENT]). *)
Definition dir_listing (w : world) (p : string) : option (list string) :=
  if (p =? "")%string then None else fs_dirs w p.

Definition opendir (w : world) (p : string) : M (option DIR) :=
  fun pr =>
    match dir_listing w p with
    | Some names =>
        (Ret (Some {| dd_id := next_stream pr; dd_buf := names |}),
         {| trace := trace pr ++ [EvOpendir p (Some (next_stream pr))];
            next_stream := S (next_stream pr) |})
    | None =>
        (Ret None,
         {| trace := trace pr ++ [EvOpendir p None];
            next_stream := next_stream pr |})
    end.

Definition closedir (d : option DIR) : M unit :=
  emit (EvClosedir (option_map dd_id d)).

(** [lstat(path, &sb)]: 0 and the metadata, or -1 and [sb] untouched. *)
Definition lstat (w : world) (p : string) (sb : stat) : Z * stat :=
  match fs_lstat w p with
  | Some st => (0, st)
  | None => (-1, sb)
  end.

(** ** [bfs] *)

(** One round of the inner loop, on the name [file->d_name] that [readdir]
    returned ([d_name] is an array, never a null pointer).  [q] and [result]
    are the queue and the vector of [bfs]. *)
Definition visit_entry (w : world) (request : Request) (current_path : string)
    (fileName : string) (q : list BfsNode) (result : list string)
    : M (list BfsNode * list string) :=
  let sb := zero_stat in
  let filePath := correctPath current_path in
  if negb ((fileName =? ".")%string || (fileName =? "..")%string) then
    let fullPath := (filePath ++ fileName)%string in
    let nm := fileName in
    let '(rc, sb) := lstat w fullPath sb in
    if negb (rc =? 1) then
      if S_ISDIR (st_mode sb) then
        nextDirectory <- opendir w fullPath ;;
        match nextDirectory with
        | None => ret ((q ++ [mkBfsNode nextDirectory fullPath])%list, result)
        | Some _ => ret (q, result)
        end
      else if checkStat request sb nm then ret (q, (result ++ [fullPath])%list)
      else ret (q, result)
    else
      printErr "Unable to access file" ;; ret (q, result)
  else ret (q, result).

(** The inner loop [while (dirent* file = readdir(current.dir))], over the
    names the stream still holds. *)
Fixpoint read_entries (w : world) (request : Request) (current_path : string)
    (names : list string) (q : list BfsNode) (result : list string)
    : M (list BfsNode * list string) :=
  match names with
  | [] => ret (q, result)
  | fileName :: names' =>
      '(q', result') <- visit_entry w request current_path fileName q result ;;
      read_entries w request current_path names' q' result'
  end.

(** The outer loop [while (!q.empty())].  The loop of the source has no
    bound of its own, so the model counts rounds; [None] means that the
    count ran out. *)
Fixpoint bfs_loop (rounds : nat) (w : world) (request : Request)
    (q : list BfsNode) (result : list string) (p : process)
    : option (outcome (list string) * process) :=
  match rounds with
  | O => None
  | S rounds' =>
      match q with
      | [] => Some (Ret result, p)
      | current :: q =>
          match dir current with
          | Some d =>
              match read_entries w request (path current) (dd_buf d) q result p with
              | (Ret (q', result'), p') =>
                  bfs_loop rounds' w request q' result'
                    (snd (closedir (dir current) p'))
              | (Exited c, p') => Some (Exited c, p')
              | (Faulted, p') => Some (Faulted, p')
              end
          | None =>
              match readdir_null w with
              | NullFaults => Some (Faulted, p)
              | NullEndOfStream =>
                  bfs_loop rounds' w request q result
                    (snd (closedir (dir current) p))
              end
          end
      end
  end.

(** A bound on the rounds a queue needs: one per frame and one per name a
    frame's stream holds (a name enqueues at most one frame, with a null
    stream); one more round finds the queue empty. *)
Fixpoint queue_weight (q : list BfsNode) : nat :=
  match q with
  | [] => 0
  | n :: q' =>
      S (match dir n with Some d => List.length (dd_buf d) | None => 0 end
         + queue_weight q')
  end.

(** [bfs].  The loop gets one round more than the queue weighs, which is
    enough for it to end ([bfs_loop_ends] below), so the branch for [None]
    is never taken. *)
Definition bfs (w : world) (request : Request) : M (list string) :=
  root <- opendir w (filePath request) ;;
  let q := [mkBfsNode root (filePath request)] in
  match root with
  | Some _ =>
      fun p =>
        match bfs_loop (S (queue_weight q)) w request q [] p with
        | Some r => r
        | None => (Faulted, p)
        end
  | None =>
      printErr "Unable to access root directory" ;; ret []
  end.

(** ** [main] *)

(** [for (std::string& file: files) printf("%s\n", file.data());] *)
Fixpoint print_files (files : list string) : M unit :=
  match files with
  | [] => ret tt
  | file :: files' => emit (EvStdout file) ;; print_files files'
  end.

Definition main (w : world) (argv : list string) : M unit :=
  let argc := Z.of_nat (List.length argv) in
  if (argc <? 2) || (Z.rem (argc - 2) 2 =? 1) then
    printErr "Invalid number of arguments" ;;
    exit EXIT_FAILURE
  else
    request <- parseArgs argv ;;
    files <- bfs w request ;;
    (if execNeeded request
     then execute w (executionPath request) files
     else print_files files) ;;
    exit EXIT_SUCCESS.

(** The run of the program from a fresh process. *)
Definition run (w : world) (argv : list string) : outcome unit * process :=
  main w argv start.

(** ** Readings of a trace *)

Definition stdout_of (t : list event) : list string :=
  flat_map (fun e => match e with EvStdout l => [l] | _ => [] end) t.

Definition stderr_of (t : list event) : list string :=
  flat_map (fun e => match e with EvStderr c => [c] | _ => [] end) t.

(** The child processes created. *)
Definition children_of (t : list event) : nat :=
  List.length (filter (fun e => match e with EvFork true => true | _ => false end) t).

(** The streams [opendir] returned, and those [closedir] was called on. *)
Definition opened_of (t : list event) : list nat :=
  flat_map (fun e => match e with EvOpendir _ (Some h) => [h] | _ => [] end) t.

Definition closed_of (t : list event) : list nat :=
  flat_map (fun e => match e with EvClosedir (Some h) => [h] | _ => [] end) t.

(** ** A test tree

    [/r] holds the files [a] (inode 7, one link, 10 bytes) and [b]
    (inode 5, two links, 3 bytes), the directory [d] with the file [c]
    (5 bytes), and the name [x] whose [lstat] fails. *)
Definition reg (ino nlink sz : Z) : stat :=
  {| st_mode := Z.lor S_IFREG 420; st_ino := ino; st_nlink := nlink; st_size := sz |}.

Definition dirstat (ino : Z) : stat :=
  {| st_mode := Z.lor S_IFDIR 493; st_ino := ino; st_nlink := 2; st_size := 4096 |}.

Definition tree_dirs (p : string) : option (list string) :=
  if (p =? "/r")%string then Some ["."; ".."; "a"; "b"; "d"]
  else if (p =? "/r/d")%string then Some ["."; ".."; "c"]
  else None.

Definition tree_lstat (p : string) : option stat :=
  if (p =? "/r")%string then Some (dirstat 2)
  else if (p =? "/r/a")%string then Some (reg 7 1 10)
  else if (p =? "/r/b")%string then Some (reg 5 2 3)
  else if (p =? "/r/d")%string then Some (dirstat 9)
  else if (p =? "/r/d/c")%string then Some (reg 11 1 5)
  else None.

Definition tree : world :=
  {| fs_dirs := tree_dirs; fs_lstat := tree_lstat;
     readdir_null := NullFaults; fork_ok := true; wait_status := Some 0 |}.

(** A second tree: [/s] lists [x], which [lstat] cannot examine (the
    directory may be read but not searched), and the three-byte file [y]. *)
Definition tree_x : world :=
  {| fs_dirs := fun p => if (p =? "/s")%string then Some ["."; ".."; "x"; "y"] else None;
     fs_lstat := fun p =>
       if (p =? "/s")%string then Some (dirstat 2)
       else if (p =? "/s/y")%string then Some (reg 4 1 3)
       else None;
     readdir_null := NullFaults; fork_ok := true; wait_status := Some 0 |}.

(** ** Vocabulary of the statements *)

(** [flag_at rest flag value]: the loop of [parseArgs] meets [flag] as
    [argv[i]] with [value] as [argv[i + 1]], [rest] being what follows
    [argv[1]]. *)
Inductive flag_at : list string -> string -> string -> Prop :=
| flag_here : forall flag value rest, flag_at (flag :: value :: rest) flag value
| flag_later : forall a v rest flag value,
    flag_at rest flag value -> flag_at (a :: v :: rest) flag value.

(** [-exec P] was supplied on the command line. *)
Definition exec_supplied (argv : list string) : Prop :=
  exists P, flag_at (skipn 2 argv) "-exec" P.

(** The first character of a [-size] value names a relation. *)
Definition names_relation (value : string) : bool :=
  match value with
  | String c _ => ((c =? "-") || (c =? "=") || (c =? "+"))%char
  | EmptyString => false
  end.

(** The request [main] hands to [bfs], when the command line gets that
    far. *)
Definition command_line (argv : list string) : option Request :=
  let argc := Z.of_nat (List.length argv) in
  if (argc <? 2) || (Z.rem (argc - 2) 2 =? 1) then None
  else match parseArgs argv start with
       | (Ret request, _) => Some request
       | _ => None
       end.

(** The walk comes back to [main]. *)
Definition walk_returns (w : world) (request : Request) : Prop :=
  exists files p, bfs w request start = (Ret files, p).

(** The matched paths of a walk: the vector it returns. *)
Definition matches_of (r : outcome (list string) * process) : list string :=
  match fst r with
  | Ret files => files
  | _ => []
  end.

(** [enables_field p p']: [p'] is [p] with one more test switched on, on a
    value of its own. *)
Inductive enables_field (p : Request) : Request -> Prop :=
| enable_inum : forall v,
    inumNeeded p = false ->
    enables_field p
      (mkRequest (filePath p) true (nameNeeded p) (sizeNeeded p)
         (nlinksNeeded p) (execNeeded p) v (name p) (executionPath p)
         (nlinkNumber p) (size p) (neededSizeArea p))
| enable_nlinks : forall v,
    nlinksNeeded p = false ->
    enables_field p
      (mkRequest (filePath p) (inumNeeded p) (nameNeeded p) (sizeNeeded p)
         true (execNeeded p) (inodeNumber p) (name p) (executionPath p)
         v (size p) (neededSizeArea p))
| enable_name : forall v,
    nameNeeded p = false ->
    enables_field p
      (mkRequest (filePath p) (inumNeeded p) true (sizeNeeded p)
         (nlinksNeeded p) (execNeeded p) (inodeNumber p) v (executionPath p)
         (nlinkNumber p) (size p) (neededSizeArea p))
| enable_size : forall area v,
    sizeNeeded p = false ->
    enables_field p
      (mkRequest (filePath p) (inumNeeded p) (nameNeeded p) true
         (nlinksNeeded p) (execNeeded p) (inodeNumber p) (name p)
         (executionPath p) (nlinkNumber p) v area).

Definition is_dots (fileName : string) : bool :=
  ((fileName =? ".") || (fileName =? ".."))%string.

(** The directories ordinary traversal reaches from [root]: the root when
    it opens, and every entry of a reached directory that [lstat] shows to
    be a directory and that opens. *)
Inductive reached (w : world) (root : string) : string -> Prop :=
| reached_root : forall names,
    dir_listing w root = Some names -> reached w root root
| reached_sub : forall d names fileName sb names',
    reached w root d ->
    dir_listing w d = Some names ->
    In fileName names -> is_dots fileName = false ->
    fs_lstat w (correctPath d ++ fileName) = Some sb ->
    S_ISDIR (st_mode sb) = true ->
    dir_listing w (correctPath d ++ fileName) = Some names' ->
    reached w root (correctPath d ++ fileName).

(** The entries traversal finds that are not directories. *)
Definition nondir_entry (w : world) (root p : string) : Prop :=
  exists d names fileName sb,
    reached w root d /\ dir_listing w d = Some names /\
    In fileName names /\ is_dots fileName = false /\
    p = (correctPath d ++ fileName)%string /\
    fs_lstat w p = Some sb /\ S_ISDIR (st_mode sb) = false.

(** What a walk may do: open and close directories, and complain. *)
Definition is_walk_event (e : event) : Prop :=
  match e with
  | EvStderr _ | EvOpendir _ _ | EvClosedir _ => True
  | _ => False
  end.

Definition null_frame (n : BfsNode) : Prop := dir n = None.

(** Two walks end alike: both return, the second vector within the first,
    or both fault. *)
Inductive ends_alike : outcome (list string) -> outcome (list string) -> Prop :=
| alike_ret : forall files files',
    incl files' files -> ends_alike (Ret files) (Ret files')
| alike_fault : ends_alike Faulted Faulted.

(** The process after [printErr message]. *)
Definition complained (p : process) (message : string) : process :=
  {| trace := trace p ++ [EvStderr message]; next_stream := next_stream p |}.

(** The tests [parseArgs] leaves switched off. *)
Definition same_switches (r r' : Request) : Prop :=
  inumNeeded r' = inumNeeded r /\ nlinksNeeded r' = nlinksNeeded r /\
  sizeNeeded r' = sizeNeeded r.

(** What a part of the walk does to queue, vector and process, under
    both requests, started from vectors [result] and [result']: the
    queue gains [pushed], frames with a null stream, the process moves
    the same way and the vectors stay included. *)
Definition walks_alike (bound : nat)
    (m m' : M (list BfsNode * list string))
    (q : list BfsNode) (result result' : list string) (p : process) : Prop :=
  exists pushed result1 result1' p1 t,
    m p = (Ret ((q ++ pushed)%list, result1), p1) /\
    m' p = (Ret ((q ++ pushed)%list, result1'), p1) /\
    Forall null_frame pushed /\ (List.length pushed <= bound)%nat /\
    (incl result' result -> incl result1' result1) /\
    trace p1 = (trace p ++ t)%list /\ Forall is_walk_event t.

(** ** Vocabulary of the walk

    What [visit_entry] does with a name, read off its branches. *)

(** [fullPath] of an entry. *)
Definition full_path (current_path fileName : string) : string :=
  (correctPath current_path ++ fileName)%string.

(** The metadata [visit_entry] goes by: [lstat]'s answer, or the zeroed
    buffer when [lstat] failed. *)
Definition seen_stat (w : world) (fullPath : string) : stat :=
  snd (lstat w fullPath zero_stat).

(** The name is taken for a directory. *)
Definition is_subdir (w : world) (current_path fileName : string) : bool :=
  negb (is_dots fileName)
  && S_ISDIR (st_mode (seen_stat w (full_path current_path fileName))).

Definition opens (w : world) (p : string) : bool :=
  match dir_listing w p with Some _ => true | None => false end.

Definition openable_subdir (w : world) (current_path fileName : string) : bool :=
  is_subdir w current_path fileName && opens w (full_path current_path fileName).

Definition unopenable_subdir (w : world) (current_path fileName : string) : bool :=
  is_subdir w current_path fileName
  && negb (opens w (full_path current_path fileName)).

(** The name is appended to the vector. *)
Definition emitted (w : world) (request : Request)
    (current_path fileName : string) : bool :=
  negb (is_dots fileName)
  && negb (S_ISDIR (st_mode (seen_stat w (full_path current_path fileName))))
  && checkStat request (seen_stat w (full_path current_path fileName)) fileName.

(** The paths one directory contributes, in [readdir] order. *)
Definition immediate_matches (w : world) (request : Request)
    (current_path : string) (names : list string) : list string :=
  map (full_path current_path) (filter (emitted w request current_path) names).

(** The frames one directory enqueues. *)
Definition null_frames (w : world) (current_path : string)
    (names : list string) : list BfsNode :=
  map (fun fileName => mkBfsNode None (full_path current_path fileName))
      (filter (unopenable_subdir w current_path) names).

(** The process after [visit_entry] on a name, and after a whole stream. *)
Definition after_visit (w : world) (current_path : string)
    (p : process) (fileName : string) : process :=
  if is_subdir w current_path fileName
  then snd (opendir w (full_path current_path fileName) p)
  else p.

Definition after_entries (w : world) (current_path : string)
    (names : list string) (p : process) : process :=
  fold_left (after_visit w current_path) names p.

(** The process after [closedir(nullptr)], [k] times. *)
Definition closed_nulls (p : process) (k : nat) : process :=
  {| trace := trace p ++ repeat (EvClosedir None) k;
     next_stream := next_stream p |}.

(** The walk of an opened root hands [readdir] a null stream that kills
    the process. *)
Definition walk_faults (w : world) (root : string) (names : list string) : bool :=
  match readdir_null w with
  | NullFaults => existsb (unopenable_subdir w root) names
  | NullEndOfStream => false
  end.

(** The flags [parseArgs] knows. *)
Definition known_flag (argument : string) : bool :=
  ((argument =? "-inum") || (argument =? "-nlinks") || (argument =? "-name")
   || (argument =? "-path") || (argument =? "-size") || (argument =? "-exec"))%string.

(** A string of decimal digits. *)
Fixpoint all_digits (s : string) : bool :=
  match s with
  | EmptyString => true
  | String c r => match digit_of c with Some _ => all_digits r | None => false end
  end.

(** What follows does not go on with a digit. *)
Definition no_digit_ahead (s : string) : bool :=
  match s with
  | EmptyString => true
  | String c _ => match digit_of c with Some _ => false | None => true end
  end.

(** * Properties *)

(** ** Readings of a trace *)

Lemma children_of_app (t u : list event) :
  children_of (t ++ u) = (children_of t + children_of u)%nat.
Proof. unfold children_of. now rewrite filter_app, length_app. Qed.

Lemma walk_events_no_children (t : list event) :
  Forall is_walk_event t -> children_of t = 0%nat.
Proof.
  induction 1 as [| e t He _ IH]; [reflexivity |].
  change (e :: t) with ([e] ++ t)%list. rewrite children_of_app, IH.
  destruct e; simpl in He; try contradiction; reflexivity.
Qed.

(** ** The command line *)

Lemma parseNumber_cases (number : string) (p : process) :
  (exists v, stoll number = Converted v /\
             parseNumber number p = (Ret (to_int v), p)) \/
  parseNumber number p = (Exited EXIT_FAILURE, complained p "stoll").
Proof.
  unfold parseNumber.
  destruct (stoll number); [left; eauto | right; reflexivity ..].
Qed.

Lemma first_char_relation (value : string) :
  names_relation value =
  ((first_char value =? "-") || (first_char value =? "=")
   || (first_char value =? "+"))%char.
Proof. destruct value; reflexivity. Qed.

(** A round of [parseArgs] either returns, silently, or complains once and
    exits with [EXIT_FAILURE]. *)
Lemma parseArg_cases (request : Request) (argument value : string) (p : process) :
  (exists r', parseArg request argument value p = (Ret r', p) /\
     same_switches request r' /\
     execNeeded r' = execNeeded request || (argument =? "-exec")%string /\
     (argument = "-size" -> names_relation value = true)) \/
  (exists message,
     parseArg request argument value p
     = (Exited EXIT_FAILURE, complained p message)).
Proof.
  unfold parseArg, same_switches.
  destruct (argument =? "-inum")%string eqn:E1.
  { apply String.eqb_eq in E1; subst argument. cbn [orb]. unfold bind.
    destruct (parseNumber_cases value p) as [(v & _ & ->) | ->].
    - left. eexists. split; [reflexivity |]. simpl. rewrite orb_false_r.
      repeat split; discriminate.
    - right. eauto. }
  destruct (argument =? "-nlinks")%string eqn:E2.
  { apply String.eqb_eq in E2; subst argument. cbn [orb]. unfold bind.
    destruct (parseNumber_cases value p) as [(v & _ & ->) | ->].
    - left. eexists. split; [reflexivity |]. simpl. rewrite orb_false_r.
      repeat split; discriminate.
    - right. eauto. }
  cbn [orb].
  destruct (argument =? "-name")%string eqn:E3.
  { apply String.eqb_eq in E3; subst argument.
    left. eexists. split; [reflexivity |]. simpl. rewrite orb_false_r.
    repeat split; discriminate. }
  destruct (argument =? "-path")%string eqn:E4.
  { apply String.eqb_eq in E4; subst argument.
    left. eexists. split; [reflexivity |]. simpl. rewrite orb_false_r.
    repeat split; discriminate. }
  destruct (argument =? "-size")%string eqn:E5.
  { apply String.eqb_eq in E5; subst argument.
    rewrite first_char_relation. unfold bind.
    destruct (first_char value =? "-")%char eqn:F1;
      [| destruct (first_char value =? "=")%char eqn:F2;
         [| destruct (first_char value =? "+")%char eqn:F3 ] ];
      cbn [orb ret printErr emit exit];
      try (right; eexists; reflexivity);
      (destruct (parseNumber_cases (substr1 value) p) as [(v & _ & ->) | ->];
       [ left; eexists; split; [reflexivity |]; simpl; rewrite orb_false_r;
         repeat split; reflexivity
       | right; eauto ]). }
  destruct (argument =? "-exec")%string eqn:E6.
  { left. eexists. split; [reflexivity |]. simpl. rewrite orb_true_r.
    repeat split. intros ->. discriminate. }
  left. exists request. split; [reflexivity |]. rewrite orb_false_r.
  repeat split. intros ->. discriminate.
Qed.

(** Induction over a list two elements at a time, as the loop of
    [parseArgs] consumes it. *)
Lemma pairs_ind (P : list string -> Prop) :
  P [] -> (forall a, P [a]) ->
  (forall a v rest, P rest -> P (a :: v :: rest)) ->
  forall l, P l.
Proof.
  intros H0 H1 H2. fix IH 1.
  intros [| a [| v rest]]; [exact H0 | apply H1 | apply H2, IH].
Qed.

Lemma flag_at_cons (a v : string) (rest : list string) (flag value : string) :
  flag_at (a :: v :: rest) flag value <->
  (a = flag /\ v = value) \/ flag_at rest flag value.
Proof.
  split.
  - inversion 1; subst; auto.
  - intros [[-> ->] | H]; [apply flag_here | now apply flag_later].
Qed.

Lemma flag_at_nil (flag value : string) : ~ flag_at [] flag value.
Proof. inversion 1. Qed.

(** The loop of [parseArgs] on arguments that come in pairs: it returns
    without a trace, or complains once and exits with [EXIT_FAILURE]. *)
Lemma parseArgs_loop_cases (rest : list string) :
  Nat.Even (List.length rest) ->
  forall (request : Request) (p : process),
  (exists r', parseArgs_loop rest request p = (Ret r', p) /\
     same_switches request r' /\
     (execNeeded r' = true <->
      execNeeded request = true \/ exists P, flag_at rest "-exec" P) /\
     (forall value, flag_at rest "-size" value -> names_relation value = true)) \/
  (exists message,
     parseArgs_loop rest request p = (Exited EXIT_FAILURE, complained p message)).
Proof.
  induction rest as [| a | a v rest IH] using pairs_ind; intros Hev request p.
  - left. exists request. split; [reflexivity |].
    split; [now repeat split |]. split.
    + split; [auto |]. intros [H | [P H]]; [assumption | now apply flag_at_nil in H].
    + intros value H. now apply flag_at_nil in H.
  - exfalso. destruct Hev as [k Hk]. simpl in Hk. lia.
  - assert (Hev' : Nat.Even (List.length rest)).
    { destruct Hev as [k Hk]. simpl in Hk. exists (k - 1)%nat. lia. }
    assert (Hstep : parseArgs_loop (a :: v :: rest) request p
                    = match parseArg request a v p with
                      | (Ret r, p') => parseArgs_loop rest r p'
                      | (Exited c, p') => (Exited c, p')
                      | (Faulted, p') => (Faulted, p')
                      end) by reflexivity.
    rewrite Hstep. clear Hstep.
    destruct (parseArg_cases request a v p)
      as [(r1 & -> & (S1 & S2 & S3) & X1 & Z1) | (message & ->)];
      [| right; eauto].
    destruct (IH Hev' r1 p)
      as [(r' & -> & (T1 & T2 & T3) & X2 & Z2) | (message & ->)];
      [| right; eauto].
    left. exists r'. split; [reflexivity |]. split.
    { unfold same_switches. repeat split; congruence. }
    split.
    + rewrite X2, X1, orb_true_iff, String.eqb_eq. split.
      * intros [[H | ->] | [P H]]; [auto | right; exists v; apply flag_here |].
        right. exists P. now apply flag_later.
      * intros [H | [P H]]; [auto |].
        apply flag_at_cons in H. destruct H as [[-> _] | H]; [auto |].
        right. eauto.
    + intros value H. apply flag_at_cons in H.
      destruct H as [[-> ->] | H]; [now apply Z1 | now apply Z2].
Qed.

(** [main] lets the command line through when it has the program's name,
    a root and pairs after them. *)
Lemma argc_test (argv : list string) :
  let argc := Z.of_nat (List.length argv) in
  (argc <? 2) || (Z.rem (argc - 2) 2 =? 1) = false ->
  Nat.Even (List.length (skipn 2 argv)).
Proof.
  intros argc H. apply orb_false_iff in H. destruct H as [H1 H2].
  apply Z.ltb_ge in H1. apply Z.eqb_neq in H2.
  rewrite Z.rem_mod_nonneg in H2 by lia.
  rewrite length_skipn. exists (Z.to_nat ((argc - 2) / 2)).
  assert (Hm : (argc - 2) mod 2 = 0) by (pose proof (Z.mod_pos_bound (argc - 2) 2); lia).
  pose proof (Z.div_mod (argc - 2) 2). subst argc. lia.
Qed.

(** What [command_line] says of a run: either [main] reaches [bfs] with
    the request, no event so far, or it complains once and exits with
    [EXIT_FAILURE] before touching the file system. *)
Lemma command_line_cases (argv : list string) :
  (exists request,
     command_line argv = Some request /\
     (forall w, run w argv =
        (files <- bfs w request ;;
         (if execNeeded request
          then execute w (executionPath request) files
          else print_files files) ;;
         exit EXIT_SUCCESS) start) /\
     same_switches default_Request request /\
     (execNeeded request = true <-> exec_supplied argv) /\
     (forall value, flag_at (skipn 2 argv) "-size" value ->
                    names_relation value = true) /\
     filePath request = nth 1 argv "") \/
  (command_line argv = None /\
   exists message,
     forall w, run w argv = (Exited EXIT_FAILURE, complained start message)).
Proof.
  unfold command_line, run, main.
  destruct ((Z.of_nat (List.length argv) <? 2)
            || (Z.rem (Z.of_nat (List.length argv) - 2) 2 =? 1)) eqn:T.
  { right. split; [reflexivity |]. eexists. intros w. reflexivity. }
  apply argc_test in T. unfold parseArgs.
  destruct (parseArgs_loop_cases _ T default_Request start)
    as [(r' & E & S & X & Z1) | (message & E)].
  - left. exists (set_filePath r' (nth 1 argv "")).
    unfold bind at 1. rewrite E. cbn [ret fst snd].
    split; [reflexivity |]. split.
    { intros w. unfold bind at 1 2. rewrite E. reflexivity. }
    split; [exact S |]. split; [| split; [exact Z1 | reflexivity]].
    cbn [set_filePath execNeeded]. rewrite X. unfold exec_supplied.
    split; [intros [H | H]; [discriminate | exact H] | auto].
  - right. unfold bind at 1. rewrite E. split; [reflexivity |].
    exists message. intros w. unfold bind at 1 2. rewrite E. reflexivity.
Qed.

(** ** The walk *)

Section Walk.
Variable w : world.

(** Two requests, the second accepting no more than the first.  The walk
    under both is followed side by side; with the two equal this is one
    walk. *)
Variables request request' : Request.
Hypothesis narrower :
  forall sb nm, checkStat request' sb nm = true -> checkStat request sb nm = true.

Lemma visit_entry_alike (current_path fileName : string)
    (q : list BfsNode) (result result' : list string) (p : process) :
  walks_alike 1
    (visit_entry w request current_path fileName q result)
    (visit_entry w request' current_path fileName q result')
    q result result' p.
Proof.
  unfold walks_alike, visit_entry.
  destruct (negb ((fileName =? ".")%string || (fileName =? "..")%string)).
  2:{ exists [], result, result', p, []. rewrite !app_nil_r.
      repeat split; auto. }
  set (fullPath := (correctPath current_path ++ fileName)%string).
  assert (Hfile : forall sb, S_ISDIR (st_mode sb) = false ->
    exists pushed result1 result1' p1 t,
      (if checkStat request sb fileName
       then ret (q, (result ++ [fullPath])%list) else ret (q, result)) p
      = (Ret ((q ++ pushed)%list, result1), p1) /\
      (if checkStat request' sb fileName
       then ret (q, (result' ++ [fullPath])%list) else ret (q, result')) p
      = (Ret ((q ++ pushed)%list, result1'), p1) /\
      Forall null_frame pushed /\ (List.length pushed <= 1)%nat /\
      (incl result' result -> incl result1' result1) /\
      trace p1 = (trace p ++ t)%list /\ Forall is_walk_event t).
  { intros sb _.
    destruct (checkStat request' sb fileName) eqn:C'.
    - rewrite (narrower _ _ C').
      exists [], (result ++ [fullPath])%list, (result' ++ [fullPath])%list, p, [].
      rewrite !app_nil_r. repeat split; auto.
      intros Hi. apply incl_app_app; [exact Hi | apply incl_refl].
    - destruct (checkStat request sb fileName).
      + exists [], (result ++ [fullPath])%list, result', p, [].
        rewrite !app_nil_r. repeat split; auto.
        intros Hi. now apply incl_appl.
      + exists [], result, result', p, [].
        rewrite !app_nil_r. repeat split; auto. }
  unfold lstat. destruct (fs_lstat w fullPath) as [sb |]; cbn [negb Z.eqb].
  - destruct (S_ISDIR (st_mode sb)) eqn:D; [| now apply Hfile].
    unfold bind, opendir. destruct (dir_listing w fullPath) as [names |].
    + eexists [], result, result', _, [EvOpendir fullPath (Some (next_stream p))].
      rewrite !app_nil_r. cbn [ret trace].
      repeat split; auto; repeat constructor.
    + eexists [mkBfsNode None fullPath], result, result', _, [EvOpendir fullPath None].
      cbn [ret trace]. repeat split; auto; repeat constructor.
  - now apply Hfile.
Qed.

Lemma read_entries_alike (current_path : string) (names : list string) :
  forall (q : list BfsNode) (result result' : list string) (p : process),
  walks_alike (List.length names)
    (read_entries w request current_path names q result)
    (read_entries w request' current_path names q result')
    q result result' p.
Proof.
  induction names as [| fileName names IH]; intros q result result' p.
  - exists [], result, result', p, []. cbn [read_entries ret].
    rewrite !app_nil_r. repeat split; auto.
  - destruct (visit_entry_alike current_path fileName q result result' p)
      as (pushed & r1 & r1' & p1 & t & E & E' & N & L & I & T & F).
    destruct (IH (q ++ pushed)%list r1 r1' p1)
      as (pushed2 & r2 & r2' & p2 & t2 & E2 & E2' & N2 & L2 & I2 & T2 & F2).
    exists (pushed ++ pushed2)%list, r2, r2', p2, (t ++ t2)%list.
    cbn [read_entries]. unfold bind.
    rewrite E, E', E2, E2', (app_assoc q pushed pushed2).
    repeat split.
    + now apply Forall_app.
    + rewrite length_app. cbn [List.length]. lia.
    + auto.
    + now rewrite T2, T, app_assoc.
    + now apply Forall_app.
Qed.
Lemma queue_weight_app (q pushed : list BfsNode) :
  Forall null_frame pushed ->
  queue_weight (q ++ pushed) = (queue_weight q + List.length pushed)%nat.
Proof.
  intros N. induction q as [| n q IH]; cbn [app queue_weight].
  - induction N as [| n pushed Hn _ IH]; [reflexivity |].
    cbn [queue_weight List.length]. unfold null_frame in Hn.
    rewrite Hn, IH. reflexivity.
  - rewrite IH. lia.
Qed.

(** With more rounds than the queue weighs the outer loop comes to an end,
    alike under both requests. *)
Lemma bfs_loop_alike (rounds : nat) :
  forall (q : list BfsNode) (result result' : list string) (p : process),
  (queue_weight q < rounds)%nat -> incl result' result ->
  exists o o' p1 t,
    bfs_loop rounds w request q result p = Some (o, p1) /\
    bfs_loop rounds w request' q result' p = Some (o', p1) /\
    ends_alike o o' /\
    trace p1 = (trace p ++ t)%list /\ Forall is_walk_event t.
Proof.
  induction rounds as [| rounds IH]; intros q result result' p Hw Hi; [lia |].
  destruct q as [| current q].
  { exists (Ret result), (Ret result'), p, []. rewrite app_nil_r.
    repeat split; auto. now constructor. }
  cbn [bfs_loop]. cbn [queue_weight] in Hw.
  destruct (dir current) as [d |] eqn:D.
  - destruct (read_entries_alike (path current) (dd_buf d) q result result' p)
      as (pushed & r1 & r1' & p1 & t & E & E' & N & L & Hi1 & T & F).
    rewrite E, E'.
    destruct (IH (q ++ pushed)%list r1 r1' (snd (closedir (Some d) p1)))
      as (o & o' & p2 & t2 & E2 & E2' & A & T2 & F2).
    { rewrite queue_weight_app by assumption. lia. }
    { auto. }
    exists o, o', p2, (t ++ EvClosedir (Some (dd_id d)) :: t2)%list.
    repeat split; try assumption.
    + rewrite T2. cbn [closedir emit snd trace option_map]. rewrite T.
      rewrite <- !app_assoc. reflexivity.
    + apply Forall_app. split; [assumption |]. constructor; [exact I | assumption].
  - destruct (readdir_null w).
    + exists Faulted, Faulted, p, []. rewrite app_nil_r.
      repeat split; auto. constructor.
    + destruct (IH q result result' (snd (closedir None p)))
        as (o & o' & p2 & t2 & E2 & E2' & A & T2 & F2); [lia | assumption |].
      exists o, o', p2, (EvClosedir None :: t2)%list.
      repeat split; try assumption.
      * rewrite T2. cbn [closedir emit snd trace option_map].
        rewrite <- app_assoc. reflexivity.
      * constructor; [exact I | assumption].
Qed.

(** [bfs] under both requests, when they walk the same root. *)
Lemma bfs_alike (p : process) :
  filePath request' = filePath request ->
  exists o o' p1 t,
    bfs w request p = (o, p1) /\ bfs w request' p = (o', p1) /\
    ends_alike o o' /\
    trace p1 = (trace p ++ t)%list /\ Forall is_walk_event t.
Proof.
  intros Hroot. unfold bfs, bind. rewrite Hroot. unfold opendir.
  destruct (dir_listing w (filePath request)) as [names |].
  - set (root := {| dd_id := next_stream p; dd_buf := names |}).
    set (p0 := {| trace := trace p ++ [EvOpendir (filePath request) (Some (next_stream p))];
                  next_stream := S (next_stream p) |}).
    destruct (bfs_loop_alike
                (S (queue_weight [mkBfsNode (Some root) (filePath request)]))
                [mkBfsNode (Some root) (filePath request)] [] [] p0)
      as (o & o' & p1 & t & E & E' & A & T & F); [lia | apply incl_refl |].
    rewrite E, E'.
    exists o, o', p1, (EvOpendir (filePath request) (Some (next_stream p)) :: t)%list.
    repeat split; try assumption.
    + rewrite T. subst p0. cbn [trace]. rewrite <- app_assoc. reflexivity.
    + constructor; [exact I | assumption].
  - eexists (Ret []), (Ret []), _,
      [EvOpendir (filePath request) None; EvStderr "Unable to access root directory"].
    cbn [printErr emit ret trace]. repeat split.
    + constructor. apply incl_refl.
    + rewrite <- app_assoc. reflexivity.
    + repeat constructor.
Qed.
End Walk.

(** More rounds than needed change nothing: the count [bfs] passes to the
    loop is a bound, not a behaviour. *)
Lemma bfs_loop_more (w : world) (request : Request) (rounds : nat) :
  forall q result p r,
  bfs_loop rounds w request q result p = Some r ->
  forall extra, bfs_loop (rounds + extra) w request q result p = Some r.
Proof.
  induction rounds as [| rounds IH]; intros q result p r H extra; [discriminate |].
  cbn [Nat.add bfs_loop] in *.
  destruct q as [| current q]; [assumption |].
  destruct (dir current).
  - destruct (read_entries w request (path current) (dd_buf d) q result p)
      as [[[q' result'] | c |] p']; auto.
  - destruct (readdir_null w); auto.
Qed.

(** A walk returns its vector or faults on a null stream; it never exits,
    and all it does is open and close directories and complain. *)
Lemma bfs_cases (w : world) (request : Request) (p : process) :
  exists o p1 t,
    bfs w request p = (o, p1) /\
    (o = Faulted \/ exists files, o = Ret files) /\
    trace p1 = (trace p ++ t)%list /\ Forall is_walk_event t.
Proof.
  destruct (bfs_alike w request request (fun _ _ H => H) p eq_refl)
    as (o & o' & p1 & t & E & _ & A & T & F).
  exists o, p1, t. repeat split; auto. destruct A; eauto.
Qed.

(** The walk is total: past the weight of the queue every count of rounds
    gives the loop's one result. *)
Lemma bfs_loop_ends (w : world) (request : Request)
    (q : list BfsNode) (result : list string) (p : process) :
  exists r, forall rounds,
    (queue_weight q < rounds)%nat ->
    bfs_loop rounds w request q result p = Some r.
Proof.
  destruct (bfs_loop_alike w request request (fun _ _ H => H)
              (S (queue_weight q)) q result result p)
    as (o & _ & p1 & _ & E & _); [lia | apply incl_refl |].
  exists (o, p1). intros rounds Hr.
  replace rounds with (S (queue_weight q) + (rounds - S (queue_weight q)))%nat by lia.
  now apply bfs_loop_more.
Qed.

Lemma print_files_trace (files : list string) :
  forall p, print_files files p
            = (Ret tt, {| trace := trace p ++ map EvStdout files;
                          next_stream := next_stream p |}).
Proof.
  induction files as [| file files IH]; intros p; cbn [print_files map].
  - unfold ret. rewrite app_nil_r. destruct p; reflexivity.
  - unfold bind, emit. rewrite IH. cbn [trace next_stream].
    rewrite <- app_assoc. reflexivity.
Qed.

Lemma children_of_stdout (files : list string) :
  children_of (map EvStdout files) = 0%nat.
Proof. induction files; [reflexivity | assumption]. Qed.

Lemma checkStat_enable (p p' : Request) :
  enables_field p p' ->
  forall sb nm, checkStat p' sb nm = true -> checkStat p sb nm = true.
Proof.
  intros [v H | v H | v H | area v H] sb nm; unfold checkStat; cbn; rewrite H; cbn.
  - destruct (negb (st_ino sb =? v)); [discriminate | auto].
  - destruct (inumNeeded p && negb (st_ino sb =? inodeNumber p)); [auto |].
    destruct (negb (st_nlink sb =? v)); [discriminate | auto].
  - destruct (inumNeeded p && negb (st_ino sb =? inodeNumber p)); [auto |].
    destruct (nlinksNeeded p && negb (st_nlink sb =? nlinkNumber p)); [auto |].
    destruct (negb (nm =? v)%string); [discriminate | auto].
  - destruct (inumNeeded p && negb (st_ino sb =? inodeNumber p)); [auto |].
    destruct (nlinksNeeded p && negb (st_nlink sb =? nlinkNumber p)); [auto |].
    destruct (nameNeeded p && negb (nm =? name p)%string); auto.
Qed.

(** The children of a run that reached [bfs]: one when the walk returned,
    [-exec] was asked for and [fork] succeeded, none otherwise. *)
Lemma disposal_children (w : world) (request : Request) :
  children_of
    (trace (snd ((files <- bfs w request ;;
                  (if execNeeded request
                   then execute w (executionPath request) files
                   else print_files files) ;;
                  @exit unit EXIT_SUCCESS) start)))
  = match fst (bfs w request start) with
    | Ret _ => if execNeeded request && fork_ok w then 1%nat else 0%nat
    | _ => 0%nat
    end.
Proof.
  destruct (bfs_cases w request start) as (o & p1 & tw & E & O & T & F).
  cbn [trace start app] in T. apply walk_events_no_children in F.
  unfold bind at 1. rewrite E. cbn [fst].
  destruct O as [-> | [files ->]]; [cbn [snd]; now rewrite T, F |].
  destruct (execNeeded request); cbn [andb].
  - unfold execute. destruct (fork_ok w).
    + destruct (wait_status w); unfold bind, printErr, emit, exit;
        cbn [snd trace]; rewrite !children_of_app, T, F; reflexivity.
    + unfold bind, printErr, emit, exit. cbn [snd trace].
      rewrite !children_of_app, T, F. reflexivity.
  - unfold bind. rewrite print_files_trace. cbn [snd trace exit].
    now rewrite children_of_app, T, F, children_of_stdout.
Qed.

(** * The claims *)

(** C9 (conjunction law): switching one more test on, on any value, never
    lets [checkStat] accept an entry it refused before, and on every tree
    each path the walk returns under the request with the added test is a
    path it returns without it. *)
Theorem conjunction_law (w : world) (p p' : Request) (pr : process) :
  enables_field p p' ->
  (forall sb nm, checkStat p' sb nm = true -> checkStat p sb nm = true) /\
  incl (matches_of (bfs w p' pr)) (matches_of (bfs w p pr)).
Proof.
  intros H. split; [now apply checkStat_enable |].
  destruct (bfs_alike w p p' (checkStat_enable p p' H) pr)
    as (o & o' & p1 & t & E & E' & A & _).
  { destruct H; reflexivity. }
  unfold matches_of. rewrite E, E'. cbn [fst].
  destruct A; [assumption | apply incl_refl].
Qed.

Lemma conjunction_law_witness :
  let p := set_filePath default_Request "/r" in
  enables_field p (set_name p "a") /\
  matches_of (bfs tree p start) = ["/r/a"; "/r/b"] /\
  matches_of (bfs tree (set_name p "a") start) = ["/r/a"] /\
  incl (matches_of (bfs tree (set_name p "a") start))
       (matches_of (bfs tree p start)).
Proof.
  intros p.
  assert (H : enables_field p (set_name p "a")) by (apply enable_name; reflexivity).
  split; [exact H |]. split; [reflexivity |]. split; [reflexivity |].
  exact (proj2 (conjunction_law tree p (set_name p "a") start H)).
Defined.

(** C7: when the loop of [parseArgs] meets [-size] with a value that does
    not begin with [-], [=] or [+], the run complains on standard error and
    exits with [EXIT_FAILURE], which is not zero; nothing is written to
    standard output, no directory is opened and no child is created. *)
Theorem bad_size_prefix_is_fatal (w : world) (argv : list string) (value : string) :
  flag_at (skipn 2 argv) "-size" value ->
  names_relation value = false ->
  let r := run w argv in
  fst r = Exited EXIT_FAILURE /\ EXIT_FAILURE <> 0 /\
  (exists message, stderr_of (trace (snd r)) = [message]) /\
  stdout_of (trace (snd r)) = [] /\
  children_of (trace (snd r)) = 0%nat /\
  opened_of (trace (snd r)) = [].
Proof.
  intros Hflag Hbad r. subst r.
  destruct (command_line_cases argv)
    as [(request & _ & _ & _ & _ & Hsize & _) | (_ & message & R)].
  - rewrite (Hsize value Hflag) in Hbad. discriminate.
  - rewrite (R w). cbn. repeat split; [discriminate | eauto].
Qed.

Lemma bad_size_prefix_is_fatal_witness :
  let r := run tree ["find"; "/tmp/t"; "-size"; "*5"] in
  fst r = Exited EXIT_FAILURE /\ EXIT_FAILURE <> 0 /\
  (exists message, stderr_of (trace (snd r)) = [message]) /\
  stdout_of (trace (snd r)) = [] /\
  children_of (trace (snd r)) = 0%nat /\
  opened_of (trace (snd r)) = [].
Proof.
  apply (bad_size_prefix_is_fatal tree ["find"; "/tmp/t"; "-size"; "*5"] "*5").
  - apply flag_here.
  - reflexivity.
Defined.

(** C8: on a command line that [main] lets through, a root that cannot be
    opened makes the walk complain once on standard error and return the
    empty vector; without [-exec] the run then prints nothing and exits
    with status 0. *)
Theorem unopenable_root (w : world) (argv : list string) (request : Request) :
  command_line argv = Some request ->
  dir_listing w (filePath request) = None ->
  let failed :=
    {| trace := [EvOpendir (filePath request) None;
                 EvStderr "Unable to access root directory"];
       next_stream := 0 |} in
  bfs w request start = (Ret [], failed) /\
  stderr_of (trace failed) = ["Unable to access root directory"] /\
  (execNeeded request = false ->
   run w argv = (Exited 0, failed) /\ stdout_of (trace failed) = []).
Proof.
  intros Hcl Hroot failed.
  assert (Hbfs : bfs w request start = (Ret [], failed)).
  { unfold bfs, bind, opendir. rewrite Hroot. reflexivity. }
  split; [exact Hbfs |]. split; [reflexivity |].
  intros Hexec. split; [| reflexivity].
  destruct (command_line_cases argv)
    as [(request0 & C & R & _) | (C & _)]; [| congruence].
  assert (request0 = request) by congruence. subst request0.
  rewrite (R w). unfold bind at 1. rewrite Hbfs, Hexec. reflexivity.
Qed.

Lemma unopenable_root_witness :
  let request := set_filePath default_Request "/nonexistent" in
  let failed :=
    {| trace := [EvOpendir "/nonexistent" None;
                 EvStderr "Unable to access root directory"];
       next_stream := 0 |} in
  bfs tree request start = (Ret [], failed) /\
  stderr_of (trace failed) = ["Unable to access root directory"] /\
  (execNeeded request = false ->
   run tree ["find"; "/nonexistent"] = (Exited 0, failed) /\
   stdout_of (trace failed) = []).
Proof.
  intros request failed.
  apply (unopenable_root tree ["find"; "/nonexistent"] request); reflexivity.
Defined.

(** C10: [parseNumber] hands back the [long long] that [stoll] converted
    reduced to an [int]: always a value in the range of [int] that differs
    from the written one by a multiple of 2^32.  So [4294967301], above
    [INT_MAX], is accepted as 5, and a negative number is accepted as it
    stands; [parseArgs] stores both without complaint, for [-inum],
    [-nlinks] and the threshold of [-size]. *)
Theorem parseNumber_narrows_to_int :
  (forall number p,
     parseNumber number p =
     match stoll number with
     | Converted v => (Ret (to_int v), p)
     | _ => (Exited EXIT_FAILURE, complained p "stoll")
     end) /\
  (forall v, INT_MIN <= to_int v <= INT_MAX /\ (v - to_int v) mod 2 ^ 32 = 0) /\
  (stoll "4294967301" = Converted 4294967301 /\ INT_MAX < 4294967301 /\
   parseNumber "4294967301" start = (Ret 5, start)) /\
  parseNumber "-7" start = (Ret (-7), start) /\
  option_map inodeNumber (command_line ["find"; "/r"; "-inum"; "-1"])
  = Some (2 ^ 64 - 1) /\
  option_map nlinkNumber (command_line ["find"; "/r"; "-nlinks"; "4294967301"])
  = Some 5 /\
  option_map size (command_line ["find"; "/r"; "-size"; "+4294967301"])
  = Some 5 /\
  option_map size (command_line ["find"; "/r"; "-size"; "=-7"])
  = Some (-7).
Proof.
  split.
  { intros number p. unfold parseNumber. destruct (stoll number); reflexivity. }
  split.
  { intros v. unfold to_int, INT_MIN, INT_MAX.
    pose proof (Z.mod_pos_bound (v + 2 ^ 31) (2 ^ 32) ltac:(lia)) as Hb.
    split; [lia |].
    replace (v - ((v + 2 ^ 31) mod 2 ^ 32 - 2 ^ 31))
      with ((v + 2 ^ 31) - (v + 2 ^ 31) mod 2 ^ 32) by lia.
    rewrite Zminus_mod, Zmod_mod, Z.sub_diag. reflexivity. }
  repeat split; vm_compute; congruence.
Qed.

(** C6, as the code has it: at most one child is created, and exactly one
    is created if and only if [main] let the command line through, [-exec]
    was supplied on it, the walk returned and [fork] succeeded.  Whether
    the root directory could be opened plays no part. *)
Theorem child_iff_exec (w : world) (argv : list string) :
  let t := trace (snd (run w argv)) in
  (children_of t <= 1)%nat /\
  (children_of t = 1%nat <->
   exists request,
     command_line argv = Some request /\ exec_supplied argv /\
     walk_returns w request /\ fork_ok w = true).
Proof.
  intros t. subst t.
  destruct (command_line_cases argv)
    as [(request & C & R & _ & X & _ & _) | (C & message & R)].
  2:{ rewrite (R w). cbn. split; [lia |]. split; [discriminate |].
      intros (request & C' & _). congruence. }
  rewrite (R w), disposal_children. clear R.
  assert (Hsame : forall request', command_line argv = Some request' ->
                                   request' = request) by congruence.
  destruct (bfs w request start) as [o p1] eqn:E. cbn [fst].
  destruct o as [files | c |].
  - destruct (execNeeded request) eqn:EX; cbn [andb].
    + destruct (fork_ok w) eqn:FK.
      * split; [lia |]. split; [| reflexivity].
        intros _. exists request. repeat split; [assumption | now apply X |].
        exists files, p1. assumption.
      * split; [lia |]. split; [discriminate |].
        intros (_ & _ & _ & _ & ?). discriminate.
    + split; [lia |]. split; [discriminate |].
      intros (_ & _ & Hx & _). apply X in Hx. congruence.
  - split; [lia |]. split; [discriminate |].
    intros (request' & C' & _ & (files & p & W) & _).
    apply Hsame in C'. subst request'. rewrite E in W. discriminate.
  - split; [lia |]. split; [discriminate |].
    intros (request' & C' & _ & (files & p & W) & _).
    apply Hsame in C'. subst request'. rewrite E in W. discriminate.
Qed.

(** C6, as the claim states it, fails: with [-exec] on the command line
    and a root that cannot be opened, a child is created all the same. *)
Lemma child_without_root :
  let argv := ["find"; "/q"; "-exec"; "/bin/true"] in
  let t := trace (snd (run tree argv)) in
  (dir_listing tree "/q" = None /\ exec_supplied argv /\ children_of t = 1%nat) /\
  ~ (children_of t = 1%nat <-> exec_supplied argv /\ dir_listing tree "/q" <> None).
Proof.
  intros argv t. split.
  - repeat split. exists "/bin/true". apply flag_here.
  - intros [H _]. destruct (H eq_refl) as [_ Hopen]. now apply Hopen.
Qed.

(** C1, where the code departs from it: no command line switches
    [inumNeeded] or [nlinksNeeded] on, so [checkStat] never compares inode
    or link count.  On the test tree [-inum 5] prints [/r/a], whose inode
    is 7, and [-nlinks 2] prints [/r/a], which has one link. *)
Theorem inum_nlinks_never_tested :
  (forall argv,
     match command_line argv with
     | Some request => inumNeeded request = false /\ nlinksNeeded request = false
     | None => True
     end) /\
  stdout_of (trace (snd (run tree ["find"; "/r"; "-inum"; "5"])))
  = ["/r/a"; "/r/b"] /\
  option_map st_ino (fs_lstat tree "/r/a") = Some 7 /\
  stdout_of (trace (snd (run tree ["find"; "/r"; "-nlinks"; "2"])))
  = ["/r/a"; "/r/b"] /\
  option_map st_nlink (fs_lstat tree "/r/a") = Some 1.
Proof.
  split; [| repeat split].
  intros argv.
  destruct (command_line_cases argv) as [(request & -> & _ & S & _) | (-> & _)];
    [| exact I].
  destruct S as (S1 & S2 & _). split; assumption.
Qed.

(** C2, where the code departs from it: no command line switches
    [sizeNeeded] on, so [checkStat] never compares sizes.  On the test
    tree [-size +8] prints [/r/b] (3 bytes), [-size =10] prints [/r/b] and
    [-size -5] prints [/r/a] (10 bytes). *)
Theorem size_never_tested :
  (forall argv,
     match command_line argv with
     | Some request => sizeNeeded request = false
     | None => True
     end) /\
  option_map st_size (fs_lstat tree "/r/a") = Some 10 /\
  option_map st_size (fs_lstat tree "/r/b") = Some 3 /\
  stdout_of (trace (snd (run tree ["find"; "/r"; "-size"; "+8"])))
  = ["/r/a"; "/r/b"] /\
  stdout_of (trace (snd (run tree ["find"; "/r"; "-size"; "=10"])))
  = ["/r/a"; "/r/b"] /\
  stdout_of (trace (snd (run tree ["find"; "/r"; "-size"; "-5"])))
  = ["/r/a"; "/r/b"].
Proof.
  split; [| repeat split].
  intros argv.
  destruct (command_line_cases argv) as [(request & -> & _ & S & _) | (-> & _)];
    [| exact I].
  destruct S as (_ & _ & S3). assumption.
Qed.

Lemma reached_tree_d : reached tree "/r" "/r/d".
Proof.
  apply (reached_sub tree "/r" "/r" ["."; ".."; "a"; "b"; "d"] "d"
           (dirstat 9) ["."; ".."; "c"]); try reflexivity.
  - now apply (reached_root tree "/r" ["."; ".."; "a"; "b"; "d"]).
  - simpl. auto 6.
Qed.

(** C3, where the code departs from it: [/r/d] opens, and the stream is
    dropped; a frame is enqueued only for a directory that failed to open.
    Reading the root leaves the queue empty, and [/r/d/c], a file that
    traversal reaches, is not printed. *)
Theorem opened_subdirectory_not_walked :
  nondir_entry tree "/r" "/r/d/c" /\
  run tree ["find"; "/r"]
  = (Exited 0,
     {| trace := [EvOpendir "/r" (Some 0%nat); EvOpendir "/r/d" (Some 1%nat);
                  EvClosedir (Some 0%nat); EvStdout "/r/a"; EvStdout "/r/b"];
        next_stream := 2 |}) /\
  ~ In "/r/d/c" (stdout_of (trace (snd (run tree ["find"; "/r"])))) /\
  fst (read_entries tree (set_filePath default_Request "/r") "/r"
         ["."; ".."; "a"; "b"; "d"] [] [] start)
  = Ret ([], ["/r/a"; "/r/b"]).
Proof.
  split; [| repeat split].
  - exists "/r/d", ["."; ".."; "c"], "c", (reg 11 1 5).
    repeat split; [exact reached_tree_d | simpl; auto].
  - vm_compute. intros [H | [H | []]]; discriminate.
Qed.

(** C4, where the code departs from it: the run opens two streams, on
    [/r] and on [/r/d], and closes the first only; the stream on [/r/d] is
    still open when the process exits. *)
Theorem subdirectory_stream_never_closed :
  let t := trace (snd (run tree ["find"; "/r"])) in
  opened_of t = [0%nat; 1%nat] /\ closed_of t = [0%nat] /\
  In (EvOpendir "/r/d" (Some 1%nat)) t /\ ~ In (EvClosedir (Some 1%nat)) t.
Proof.
  intros t. repeat split.
  - vm_compute. auto.
  - vm_compute. intros H. repeat (destruct H as [H | H]; [discriminate |]).
    exact H.
Qed.

(** C5, where the code departs from it: [lstat] answers 0 or -1, never 1,
    so the test [lstat(...) != 1] always passes and the complaint is never
    made.  On the second tree [lstat] fails on [/s/x]; nothing goes to
    standard error and [/s/x] is printed, judged on the zeroed [sb]. *)
Theorem failed_lstat_not_reported :
  (forall w p sb, fst (lstat w p sb) <> 1) /\
  fs_lstat tree_x "/s/x" = None /\
  run tree_x ["find"; "/s"]
  = (Exited 0,
     {| trace := [EvOpendir "/s" (Some 0%nat); EvClosedir (Some 0%nat);
                  EvStdout "/s/x"; EvStdout "/s/y"];
        next_stream := 1 |}) /\
  stderr_of (trace (snd (run tree_x ["find"; "/s"]))) = [] /\
  In "/s/x" (stdout_of (trace (snd (run tree_x ["find"; "/s"])))).
Proof.
  split; [| repeat split].
  - intros w p sb. unfold lstat. destruct (fs_lstat w p); discriminate.
  - vm_compute. auto.
Qed.

(** * Further properties of the code *)

(** ** [correctPath] *)



(** ** The tests of [checkStat] *)

Lemma guard_iff (needed test rest : bool) :
  (if needed && negb test then false else rest) = true <->
  (needed = true -> test = true) /\ rest = true.
Proof.
  destruct needed, test; cbn; intuition congruence.
Qed.

(** [checkStat] is the conjunction of the tests that are switched on:
    equality on inode, on link count and on name, and the strict or exact
    comparison [neededSizeArea] names; [sizeNeeded] with [EMPTY] tests
    nothing. *)
Theorem checkStat_iff (request : Request) (sb : stat) (nm : string) :
  checkStat request sb nm = true <->
  (inumNeeded request = true -> st_ino sb = inodeNumber request) /\
  (nlinksNeeded request = true -> st_nlink sb = nlinkNumber request) /\
  (nameNeeded request = true -> nm = name request) /\
  (sizeNeeded request = true ->
   match neededSizeArea request with
   | LESS => st_size sb < size request
   | EQUAL => st_size sb = size request
   | GREATER => st_size sb > size request
   | EMPTY => True
   end).
Proof.
  unfold checkStat.
  rewrite !guard_iff, Z.eqb_eq, Z.eqb_eq, String.eqb_eq.
  assert (Hsize :
    (if sizeNeeded request
     then match neededSizeArea request with
          | EMPTY => true
          | LESS => if st_size sb >=? size request then false else true
          | GREATER => if st_size sb <=? size request then false else true
          | EQUAL => if negb (st_size sb =? size request) then false else true
          end
     else true) = true <->
    (sizeNeeded request = true ->
     match neededSizeArea request with
     | LESS => st_size sb < size request
     | EQUAL => st_size sb = size request
     | GREATER => st_size sb > size request
     | EMPTY => True
     end)).
  { destruct (sizeNeeded request); [| split; [discriminate | reflexivity]].
    destruct (neededSizeArea request).
    - tauto.
    - destruct (Z.geb_spec (st_size sb) (size request)); split; intros Ht;
        try specialize (Ht eq_refl); try discriminate; try reflexivity; lia.
    - destruct (Z.leb_spec (st_size sb) (size request)); split; intros Ht;
        try specialize (Ht eq_refl); try discriminate; try reflexivity; lia.
    - destruct (Z.eqb_spec (st_size sb) (size request)); cbn [negb]; split; intros Ht;
        try specialize (Ht eq_refl); try discriminate; try reflexivity;
        try assumption; lia. }
  rewrite Hsize. tauto.
Qed.

(** On every command line that [main] lets through, the only test
    [checkStat] applies is the one on the name: whatever [-inum],
    [-nlinks] and [-size] were given, an entry is accepted exactly when no
    [-name] or [-path] was given or its name is the one asked for. *)
Theorem command_line_tests_name_only (argv : list string) :
  match command_line argv with
  | Some request =>
      forall sb nm,
        checkStat request sb nm
        = if nameNeeded request then (nm =? name request)%string else true
  | None => True
  end.
Proof.
  destruct (command_line_cases argv) as [(request & -> & _ & S & _) | (-> & _)];
    [| exact I].
  destruct S as (S1 & S2 & S3). cbn in S1, S2, S3.
  intros sb nm. unfold checkStat. rewrite S1, S2, S3. cbn [andb].
  destruct (nameNeeded request); [| reflexivity].
  cbn [andb]. now destruct (nm =? name request)%string.
Qed.

(** ** The command line, further *)

(** [main] refuses a command line without a root, or with a flag left
    without its value, before anything else happens. *)
Theorem invalid_argument_count_is_fatal (w : world) (argv : list string) :
  (List.length argv < 2)%nat \/ Nat.Odd (List.length argv) ->
  run w argv
  = (Exited EXIT_FAILURE, complained start "Invalid number of arguments").
Proof.
  intros H. unfold run, main.
  assert (T : (Z.of_nat (List.length argv) <? 2)
              || (Z.rem (Z.of_nat (List.length argv) - 2) 2 =? 1) = true).
  { apply orb_true_iff.
    destruct (Z.ltb_spec (Z.of_nat (List.length argv)) 2) as [L | L]; [now left | right].
    destruct H as [H | [k Hk]]; [lia |].
    apply Z.eqb_eq. rewrite Z.rem_mod_nonneg by lia.
    replace (Z.of_nat (List.length argv) - 2) with (1 + (Z.of_nat k - 1) * 2) by lia.
    now rewrite Z.mod_add by lia. }
  rewrite T. reflexivity.
Qed.

Lemma invalid_argument_count_is_fatal_witness :
  run tree ["find"; "/r"; "-name"]
  = (Exited EXIT_FAILURE, complained start "Invalid number of arguments").
Proof.
  apply (invalid_argument_count_is_fatal tree ["find"; "/r"; "-name"]).
  right. exists 1%nat. reflexivity.
Defined.

(** A round of [parseArgs] that returns has converted the number it was
    given. *)
Lemma parseArg_returns_number (request : Request) (argument value : string)
    (p : process) (r' : Request) (p' : process) :
  parseArg request argument value p = (Ret r', p') ->
  (argument = "-inum" \/ argument = "-nlinks" ->
   exists n, stoll value = Converted n) /\
  (argument = "-size" -> exists n, stoll (substr1 value) = Converted n).
Proof.
  intros H. split.
  - intros Ha.
    assert (E : parseArg request argument value p
                = match parseNumber value p with
                  | (Ret n, p1) =>
                      ((if (argument =? "-inum")%string
                        then ret (set_inodeNumber request (to_u64 n))
                        else ret (set_nlinkNumber request (to_u64 n))) p1)
                  | (Exited c, p1) => (Exited c, p1)
                  | (Faulted, p1) => (Faulted, p1)
                  end) by (destruct Ha; subst; reflexivity).
    rewrite E in H.
    destruct (parseNumber_cases value p) as [(n & Hn & En) | En];
      rewrite En in H; [eauto | discriminate].
  - intros ->.
    assert (E : parseArg request "-size" value p
                = (area <- (if (first_char value =? "-")%char then ret LESS
                            else if (first_char value =? "=")%char then ret EQUAL
                            else if (first_char value =? "+")%char then ret GREATER
                            else printErr "Invalid value for -size argument" ;;
                                 exit EXIT_FAILURE) ;;
                   number <- parseNumber (substr1 value) ;;
                   ret (set_size (set_neededSizeArea request area) number)) p)
      by reflexivity.
    rewrite E in H. clear E. unfold bind in H.
    destruct (first_char value =? "-")%char;
      [| destruct (first_char value =? "=")%char;
         [| destruct (first_char value =? "+")%char ] ];
      cbn [ret printErr emit exit] in H; try discriminate;
      (destruct (parseNumber_cases (substr1 value) p) as [(n & Hn & En) | En];
       rewrite En in H; [eauto | discriminate]).
Qed.

Lemma parseArgs_loop_returns_numbers (rest : list string) :
  forall (request : Request) (p : process) (r' : Request) (p' : process),
  parseArgs_loop rest request p = (Ret r', p') ->
  forall flag value, flag_at rest flag value ->
  (flag = "-inum" \/ flag = "-nlinks" -> exists n, stoll value = Converted n) /\
  (flag = "-size" -> exists n, stoll (substr1 value) = Converted n).
Proof.
  induction rest as [| a | a v rest IH] using pairs_ind;
    intros request p r' p' H flag value F.
  - now apply flag_at_nil in F.
  - inversion F.
  - cbn [parseArgs_loop] in H. unfold bind in H.
    destruct (parseArg request a v p) as [[r1 | c |] p1] eqn:E; try discriminate.
    apply flag_at_cons in F. destruct F as [[-> ->] | F].
    + exact (parseArg_returns_number _ _ _ _ _ _ E).
    + exact (IH _ _ _ _ H _ _ F).
Qed.

(** A command line [main] lets through has been read to the end by the
    loop of [parseArgs]. *)
Lemma command_line_parsed (argv : list string) (request : Request) :
  command_line argv = Some request ->
  exists r' p',
    parseArgs_loop (skipn 2 argv) default_Request start = (Ret r', p') /\
    request = set_filePath r' (nth 1 argv "").
Proof.
  unfold command_line, parseArgs, bind.
  destruct ((Z.of_nat (List.length argv) <? 2)
            || (Z.rem (Z.of_nat (List.length argv) - 2) 2 =? 1)); [discriminate |].
  destruct (parseArgs_loop (skipn 2 argv) default_Request start)
    as [[r' | c |] p']; try discriminate.
  cbn [ret]. intros H. inversion H. eauto.
Qed.

(** A number that [stoll] cannot convert, given to [-inum] or [-nlinks] or
    after the relation of [-size], ends the run: one complaint on standard
    error, [EXIT_FAILURE], nothing on standard output, no directory opened
    and no child. *)
Theorem unconvertible_number_is_fatal (w : world) (argv : list string)
    (flag value : string) :
  flag_at (skipn 2 argv) flag value ->
  ((flag = "-inum" \/ flag = "-nlinks") /\ (forall n, stoll value <> Converted n)) \/
  (flag = "-size" /\ (forall n, stoll (substr1 value) <> Converted n)) ->
  let r := run w argv in
  fst r = Exited EXIT_FAILURE /\
  (exists message, stderr_of (trace (snd r)) = [message]) /\
  stdout_of (trace (snd r)) = [] /\
  children_of (trace (snd r)) = 0%nat /\
  opened_of (trace (snd r)) = [].
Proof.
  intros F Hbad r. subst r.
  destruct (command_line_cases argv)
    as [(request & C & _) | (_ & message & R)].
  - exfalso. apply command_line_parsed in C. destruct C as (r' & p' & L & _).
    destruct (parseArgs_loop_returns_numbers _ _ _ _ _ L _ _ F) as [N1 N2].
    destruct Hbad as [[Hf Hn] | [Hf Hn]].
    + destruct (N1 Hf) as [n E]. now apply (Hn n).
    + destruct (N2 Hf) as [n E]. now apply (Hn n).
  - rewrite (R w). cbn. repeat split. eauto.
Qed.

Lemma unconvertible_number_is_fatal_witness :
  let r := run tree ["find"; "/r"; "-inum"; "seven"] in
  fst r = Exited EXIT_FAILURE /\
  (exists message, stderr_of (trace (snd r)) = [message]) /\
  stdout_of (trace (snd r)) = [] /\
  children_of (trace (snd r)) = 0%nat /\
  opened_of (trace (snd r)) = [].
Proof.
  apply (unconvertible_number_is_fatal tree ["find"; "/r"; "-inum"; "seven"]
           "-inum" "seven").
  - apply flag_here.
  - left. split; [now left | intros n; discriminate].
Defined.

(** The loop of [parseArgs] on two lists that it reads alike, after a
    common beginning of whole pairs. *)
Lemma parseArgs_loop_after (pre : list string) :
  Nat.Even (List.length pre) ->
  forall l l' : list string,
  (forall r p, parseArgs_loop l r p = parseArgs_loop l' r p) ->
  forall r p, parseArgs_loop (pre ++ l) r p = parseArgs_loop (pre ++ l') r p.
Proof.
  induction pre as [| a | a v pre IH] using pairs_ind; intros Hev l l' Hl r p.
  - apply Hl.
  - exfalso. destruct Hev as [k Hk]. simpl in Hk. lia.
  - assert (Hev' : Nat.Even (List.length pre)).
    { destruct Hev as [k Hk]. simpl in Hk. exists (k - 1)%nat. lia. }
    cbn [app parseArgs_loop]. unfold bind.
    destruct (parseArg r a v p) as [[r1 | c |] p1]; [| reflexivity ..].
    now apply IH.
Qed.

Lemma bind_same {A B} (m m' : M A) (k : A -> M B) (p : process) :
  m p = m' p -> bind m k p = bind m' k p.
Proof. unfold bind. now intros ->. Qed.

Lemma parseArgs_after (prog root : string) (pre l l' : list string) :
  Nat.Even (List.length pre) ->
  (forall r p, parseArgs_loop l r p = parseArgs_loop l' r p) ->
  forall p, parseArgs (prog :: root :: pre ++ l) p
            = parseArgs (prog :: root :: pre ++ l') p.
Proof.
  intros Hev Hl p. unfold parseArgs. cbn [skipn nth].
  apply bind_same. now apply parseArgs_loop_after.
Qed.

(** The same, one level up: two command lines that differ in what follows
    a common beginning run alike. *)
Lemma run_after (w : world) (prog root : string) (pre l l' : list string) :
  Nat.Even (List.length pre) ->
  (List.length l = List.length l' + 2 \/ List.length l = List.length l')%nat ->
  (forall r p, parseArgs_loop l r p = parseArgs_loop l' r p) ->
  run w (prog :: root :: pre ++ l) = run w (prog :: root :: pre ++ l').
Proof.
  intros Hev Hlen Hl. unfold run, main.
  replace ((Z.of_nat (List.length (prog :: root :: pre ++ l)) <? 2)
           || (Z.rem (Z.of_nat (List.length (prog :: root :: pre ++ l)) - 2) 2 =? 1))
    with ((Z.of_nat (List.length (prog :: root :: pre ++ l')) <? 2)
          || (Z.rem (Z.of_nat (List.length (prog :: root :: pre ++ l')) - 2) 2 =? 1)).
  - destruct ((Z.of_nat (List.length (prog :: root :: pre ++ l')) <? 2)
              || (Z.rem (Z.of_nat (List.length (prog :: root :: pre ++ l')) - 2) 2 =? 1));
      [reflexivity |].
    apply bind_same. now apply parseArgs_after.
  - cbn [List.length]. rewrite !length_app.
    destruct Hlen as [Hlen | Hlen]; rewrite Hlen; [| reflexivity].
    set (n := (List.length pre + List.length l')%nat).
    replace (Z.of_nat (S (S (List.length pre + (List.length l' + 2)))) - 2)
      with (Z.of_nat n + 1 * 2) by lia.
    replace (Z.of_nat (S (S n)) - 2) with (Z.of_nat n) by lia.
    rewrite !Z.rem_mod_nonneg, Z.mod_add by lia.
    destruct (Z.ltb_spec (Z.of_nat (S (S n))) 2);
      destruct (Z.ltb_spec (Z.of_nat (S (S (List.length pre + (List.length l' + 2))))) 2);
      try lia; reflexivity.
Qed.

Lemma parseArg_unknown (request : Request) (argument value : string) :
  known_flag argument = false -> parseArg request argument value = ret request.
Proof.
  unfold known_flag, parseArg. intros H.
  repeat (apply orb_false_iff in H; destruct H as [H ?]).
  repeat match goal with E : (_ =? _)%string = false |- _ => rewrite E; clear E end.
  reflexivity.
Qed.

(** A flag [parseArgs] does not know is passed over with its value: the
    run is the one of the command line without the pair. *)
Theorem unknown_flag_is_ignored (w : world) (prog root : string)
    (pre post : list string) (flag value : string) :
  Nat.Even (List.length pre) ->
  known_flag flag = false ->
  run w (prog :: root :: pre ++ flag :: value :: post)
  = run w (prog :: root :: pre ++ post).
Proof.
  intros Hev Hk. apply run_after; [assumption | cbn [List.length]; lia |].
  intros r p. cbn [parseArgs_loop]. unfold bind.
  rewrite (parseArg_unknown r flag value Hk). reflexivity.
Qed.

Lemma unknown_flag_is_ignored_witness :
  run tree ["find"; "/r"; "-name"; "a"; "-type"; "f"]
  = run tree ["find"; "/r"; "-name"; "a"].
Proof.
  apply (unknown_flag_is_ignored tree "find" "/r" ["-name"; "a"] [] "-type" "f").
  - exists 1%nat. reflexivity.
  - reflexivity.
Defined.

(** [-path] is [-name] under another spelling: it tests the final
    component for equality, not the path. *)
Theorem path_flag_is_name_flag (w : world) (prog root : string)
    (pre post : list string) (value : string) :
  Nat.Even (List.length pre) ->
  run w (prog :: root :: pre ++ "-path" :: value :: post)
  = run w (prog :: root :: pre ++ "-name" :: value :: post).
Proof.
  intros Hev. apply run_after; [assumption | now right | reflexivity].
Qed.

Lemma path_flag_is_name_flag_witness :
  run tree ["find"; "/r"; "-path"; "a"] = run tree ["find"; "/r"; "-name"; "a"].
Proof.
  apply (path_flag_is_name_flag tree "find" "/r" [] [] "a").
  exists 0%nat. reflexivity.
Defined.

(** What a round of [parseArgs] that returns leaves in the fields for
    [-exec] and for [-name] and [-path]. *)
Lemma parseArg_fields (request : Request) (argument value : string)
    (p : process) (r' : Request) (p' : process) :
  parseArg request argument value p = (Ret r', p') ->
  (executionPath r' = if (argument =? "-exec")%string
                      then value else executionPath request) /\
  execNeeded r' = execNeeded request || (argument =? "-exec")%string /\
  (name r' = if ((argument =? "-name") || (argument =? "-path"))%string
             then value else name request) /\
  nameNeeded r'
  = nameNeeded request || ((argument =? "-name") || (argument =? "-path"))%string.
Proof.
  unfold parseArg.
  destruct (argument =? "-inum")%string eqn:E1.
  { apply String.eqb_eq in E1; subst argument. cbn [orb]. unfold bind.
    destruct (parseNumber_cases value p) as [(n & _ & ->) | ->];
      intros H; inversion H; subst; cbn; rewrite !orb_false_r; auto. }
  destruct (argument =? "-nlinks")%string eqn:E2.
  { apply String.eqb_eq in E2; subst argument. cbn [orb]. unfold bind.
    destruct (parseNumber_cases value p) as [(n & _ & ->) | ->];
      intros H; inversion H; subst; cbn; rewrite !orb_false_r; auto. }
  cbn [orb].
  destruct (argument =? "-name")%string eqn:E3.
  { apply String.eqb_eq in E3; subst argument.
    intros H; inversion H; subst; cbn; rewrite ?orb_false_r, ?orb_true_r; auto. }
  destruct (argument =? "-path")%string eqn:E4.
  { apply String.eqb_eq in E4; subst argument.
    intros H; inversion H; subst; cbn; rewrite ?orb_false_r, ?orb_true_r; auto. }
  destruct (argument =? "-size")%string eqn:E5.
  { apply String.eqb_eq in E5; subst argument. unfold bind.
    destruct (first_char value =? "-")%char;
      [| destruct (first_char value =? "=")%char;
         [| destruct (first_char value =? "+")%char ] ];
      cbn [ret printErr emit exit]; try discriminate;
      (destruct (parseNumber_cases (substr1 value) p) as [(n & _ & ->) | ->];
       intros H; inversion H; subst; cbn; rewrite !orb_false_r; auto). }
  destruct (argument =? "-exec")%string eqn:E6;
    intros H; inversion H; subst; cbn; rewrite ?orb_false_r, ?orb_true_r; auto.
Qed.

Lemma parseArgs_loop_keeps (post : list string) :
  forall (request : Request) (p : process) (r' : Request) (p' : process),
  parseArgs_loop post request p = (Ret r', p') ->
  ((forall P, ~ flag_at post "-exec" P) ->
   executionPath r' = executionPath request /\ execNeeded r' = execNeeded request) /\
  ((forall v, ~ flag_at post "-name" v) -> (forall v, ~ flag_at post "-path" v) ->
   name r' = name request /\ nameNeeded r' = nameNeeded request).
Proof.
  induction post as [| a | a v post IH] using pairs_ind;
    intros request p r' p' H.
  - inversion H; subst. auto.
  - discriminate.
  - cbn [parseArgs_loop] in H. unfold bind in H.
    destruct (parseArg request a v p) as [[r1 | c |] p1] eqn:E; try discriminate.
    destruct (parseArg_fields _ _ _ _ _ _ E) as (X1 & X2 & N1 & N2).
    destruct (IH _ _ _ _ H) as [KX KN]. split.
    + intros Hno.
      destruct (String.eqb_spec a "-exec") as [-> | _].
      { exfalso. apply (Hno v), flag_here. }
      rewrite orb_false_r in X2. rewrite <- X1, <- X2. apply KX.
      intros P F. apply (Hno P). now apply flag_later.
    + intros Hn Hp.
      destruct (String.eqb_spec a "-name") as [-> | _].
      { exfalso. apply (Hn v), flag_here. }
      destruct (String.eqb_spec a "-path") as [-> | _].
      { exfalso. apply (Hp v), flag_here. }
      cbn [orb] in N1, N2. rewrite orb_false_r in N2. rewrite <- N1, <- N2.
      apply KN; intros v' F; [apply (Hn v') | apply (Hp v')]; now apply flag_later.
Qed.

(** The loop of [parseArgs] over a beginning of whole pairs and what
    follows it is the loop over the one, then over the other. *)
Lemma parseArgs_loop_app (pre : list string) :
  Nat.Even (List.length pre) ->
  forall l r p,
  parseArgs_loop (pre ++ l) r p
  = bind (parseArgs_loop pre r) (fun r1 => parseArgs_loop l r1) p.
Proof.
  induction pre as [| a | a v pre IH] using pairs_ind; intros Hev l r p.
  - reflexivity.
  - exfalso. destruct Hev as [k Hk]. simpl in Hk. lia.
  - assert (Hev' : Nat.Even (List.length pre)).
    { destruct Hev as [k Hk]. simpl in Hk. exists (k - 1)%nat. lia. }
    cbn [app parseArgs_loop]. unfold bind at 1 2 3.
    destruct (parseArg r a v p) as [[r1 | c |] p1]; [| reflexivity ..].
    now apply IH.
Qed.

(** The last pair of a flag, on a command line [main] lets through, after
    which the loop returns [r']. *)
Lemma command_line_last (prog root : string) (pre post : list string)
    (flag value : string) (request : Request) :
  Nat.Even (List.length pre) ->
  command_line (prog :: root :: pre ++ flag :: value :: post) = Some request ->
  exists r0 p0 r1 p1 r' p',
    parseArg r0 flag value p0 = (Ret r1, p1) /\
    parseArgs_loop post r1 p1 = (Ret r', p') /\
    request = set_filePath r' root.
Proof.
  intros Hev C. apply command_line_parsed in C.
  destruct C as (r' & p' & L & ->). cbn [skipn nth] in L.
  rewrite (parseArgs_loop_app pre Hev) in L. unfold bind at 1 in L.
  destruct (parseArgs_loop pre default_Request start) as [[r0 | c |] p0];
    try discriminate.
  cbn [parseArgs_loop] in L. unfold bind in L.
  destruct (parseArg r0 flag value p0) as [[r1 | c |] p1] eqn:E; try discriminate.
  exists r0, p0, r1, p1, r', p'. auto.
Qed.

(** When [-exec] is given more than once, the program of the last one is
    the one to run. *)
Theorem last_exec_wins (prog root : string) (pre post : list string)
    (P : string) (request : Request) :
  Nat.Even (List.length pre) ->
  (forall P', ~ flag_at post "-exec" P') ->
  command_line (prog :: root :: pre ++ "-exec" :: P :: post) = Some request ->
  execNeeded request = true /\ executionPath request = P.
Proof.
  intros Hev Hno C.
  destruct (command_line_last _ _ _ _ _ _ _ Hev C)
    as (r0 & p0 & r1 & p1 & r' & p' & E & L & ->).
  destruct (parseArg_fields _ _ _ _ _ _ E) as (X1 & X2 & _).
  destruct (proj1 (parseArgs_loop_keeps _ _ _ _ _ L) Hno) as [K1 K2].
  cbn [set_filePath execNeeded executionPath]. rewrite K1, K2, X1, X2.
  cbn. now rewrite orb_true_r.
Qed.

Lemma last_exec_wins_witness :
  let request :=
    set_filePath (set_exec (set_exec default_Request "/bin/a") "/bin/b") "/r" in
  command_line ["find"; "/r"; "-exec"; "/bin/a"; "-exec"; "/bin/b"] = Some request /\
  execNeeded request = true /\ executionPath request = "/bin/b".
Proof.
  intros request. split; [reflexivity |].
  apply (last_exec_wins "find" "/r" ["-exec"; "/bin/a"] [] "/bin/b" request).
  - exists 1%nat. reflexivity.
  - intros P' F. inversion F.
  - reflexivity.
Defined.

(** [-name] and [-path] share one field: the value of the last of them is
    the name entries are compared with. *)
Theorem last_name_wins (prog root : string) (pre post : list string)
    (flag value : string) (request : Request) :
  Nat.Even (List.length pre) ->
  flag = "-name" \/ flag = "-path" ->
  (forall v, ~ flag_at post "-name" v) ->
  (forall v, ~ flag_at post "-path" v) ->
  command_line (prog :: root :: pre ++ flag :: value :: post) = Some request ->
  nameNeeded request = true /\ name request = value.
Proof.
  intros Hev Hflag Hn Hp C.
  destruct (command_line_last _ _ _ _ _ _ _ Hev C)
    as (r0 & p0 & r1 & p1 & r' & p' & E & L & ->).
  destruct (parseArg_fields _ _ _ _ _ _ E) as (_ & _ & N1 & N2).
  destruct (proj2 (parseArgs_loop_keeps _ _ _ _ _ L) Hn Hp) as [K1 K2].
  cbn [set_filePath nameNeeded name]. rewrite K1, K2, N1, N2.
  destruct Hflag as [-> | ->]; cbn; now rewrite orb_true_r.
Qed.

Lemma last_name_wins_witness :
  let request :=
    set_filePath (set_name (set_name default_Request "a") "b") "/r" in
  command_line ["find"; "/r"; "-name"; "a"; "-path"; "b"] = Some request /\
  nameNeeded request = true /\ name request = "b".
Proof.
  intros request. split; [reflexivity |].
  apply (last_name_wins "find" "/r" ["-name"; "a"] [] "-path" "b" request).
  - exists 1%nat. reflexivity.
  - now right.
  - intros v F. inversion F.
  - intros v F. inversion F.
  - reflexivity.
Defined.

(** ** The walk, entry by entry *)

Lemma opened_of_app (t u : list event) :
  opened_of (t ++ u) = (opened_of t ++ opened_of u)%list.
Proof. unfold opened_of. apply flat_map_app. Qed.

Lemma closed_of_app (t u : list event) :
  closed_of (t ++ u) = (closed_of t ++ closed_of u)%list.
Proof. unfold closed_of. apply flat_map_app. Qed.

Lemma stderr_of_app (t u : list event) :
  stderr_of (t ++ u) = (stderr_of t ++ stderr_of u)%list.
Proof. unfold stderr_of. apply flat_map_app. Qed.

Lemma stdout_of_app (t u : list event) :
  stdout_of (t ++ u) = (stdout_of t ++ stdout_of u)%list.
Proof. unfold stdout_of. apply flat_map_app. Qed.

Lemma seen_stat_lstat (w : world) (fullPath : string) :
  lstat w fullPath zero_stat
  = (match fs_lstat w fullPath with Some _ => 0 | None => -1 end,
     seen_stat w fullPath).
Proof. unfold seen_stat, lstat. now destruct (fs_lstat w fullPath). Qed.

(** [visit_entry], branch by branch. *)
Lemma visit_entry_exact (w : world) (request : Request)
    (current_path fileName : string) (q : list BfsNode) (result : list string)
    (p : process) :
  visit_entry w request current_path fileName q result p
  = (Ret ((q ++ null_frames w current_path [fileName])%list,
          (result ++ immediate_matches w request current_path [fileName])%list),
     after_visit w current_path p fileName).
Proof.
  unfold visit_entry, null_frames, immediate_matches, after_visit,
    unopenable_subdir, emitted, is_subdir, opens, is_dots.
  fold (full_path current_path fileName). cbn [filter].
  destruct ((fileName =? ".")%string || (fileName =? "..")%string); cbn [negb andb].
  { cbn [map]. now rewrite !app_nil_r. }
  rewrite seen_stat_lstat.
  assert (Hrc : negb (match fs_lstat w (full_path current_path fileName) with
                      | Some _ => 0
                      | None => -1
                      end =? 1) = true)
    by now destruct (fs_lstat w (full_path current_path fileName)).
  rewrite Hrc.
  destruct (S_ISDIR (st_mode (seen_stat w (full_path current_path fileName))));
    cbn [negb andb].
  - unfold bind, opendir.
    destruct (dir_listing w (full_path current_path fileName));
      cbn [negb map ret snd]; now rewrite ?app_nil_r.
  - destruct (checkStat request (seen_stat w (full_path current_path fileName)) fileName);
      cbn [map ret]; now rewrite ?app_nil_r.
Qed.

(** The inner loop over a whole stream. *)
Lemma read_entries_exact (w : world) (request : Request) (current_path : string)
    (names : list string) :
  forall (q : list BfsNode) (result : list string) (p : process),
  read_entries w request current_path names q result p
  = (Ret ((q ++ null_frames w current_path names)%list,
          (result ++ immediate_matches w request current_path names)%list),
     after_entries w current_path names p).
Proof.
  induction names as [| fileName names IH]; intros q result p.
  - cbn. now rewrite !app_nil_r.
  - cbn [read_entries]. unfold bind. rewrite visit_entry_exact, IH.
    unfold null_frames, immediate_matches, after_entries.
    change (fileName :: names) with ([fileName] ++ names)%list.
    rewrite !filter_app, !map_app, <- !app_assoc. reflexivity.
Qed.

(** What reading a stream does to the process: it opens one stream for
    each name that is a directory and can be opened, and nothing else
    shows. *)
Lemma after_entries_trace (w : world) (current_path : string) (names : list string) :
  forall p : process,
  let k := List.length (filter (openable_subdir w current_path) names) in
  exists t,
    trace (after_entries w current_path names p) = (trace p ++ t)%list /\
    next_stream (after_entries w current_path names p) = (next_stream p + k)%nat /\
    opened_of t = seq (next_stream p) k /\
    closed_of t = [] /\ stderr_of t = [] /\ stdout_of t = [] /\
    children_of t = 0%nat.
Proof.
  induction names as [| fileName names IH]; intros p k.
  - exists []. cbn. rewrite app_nil_r, Nat.add_0_r. repeat split.
  - subst k. cbn [after_entries fold_left filter].
    fold (after_entries w current_path names (after_visit w current_path p fileName)).
    destruct (IH (after_visit w current_path p fileName))
      as (t & T & N & O & C & E & So & F).
    unfold after_visit in *.
    destruct (is_subdir w current_path fileName) eqn:Sd.
    + unfold opendir in *.
      destruct (dir_listing w (full_path current_path fileName)) eqn:D;
        cbn [snd trace next_stream] in *.
      * assert (Ho : openable_subdir w current_path fileName = true)
          by (unfold openable_subdir, opens; now rewrite Sd, D).
        rewrite Ho.
        exists (EvOpendir (full_path current_path fileName) (Some (next_stream p)) :: t).
        rewrite T, N, <- app_assoc. cbn [List.length seq].
        repeat split; try assumption; try lia.
        change (next_stream p :: opened_of t
                = next_stream p :: seq (S (next_stream p))
                    (List.length (filter (openable_subdir w current_path) names))).
        now rewrite O.
      * assert (Ho : openable_subdir w current_path fileName = false)
          by (unfold openable_subdir, opens; now rewrite Sd, D).
        rewrite Ho.
        exists (EvOpendir (full_path current_path fileName) None :: t).
        rewrite T, N, <- app_assoc. repeat split; assumption.
    + assert (Ho : openable_subdir w current_path fileName = false)
        by (unfold openable_subdir; now rewrite Sd).
      rewrite Ho. exists t. repeat split; assumption.
Qed.

(** The outer loop on a queue of frames with null streams. *)
Lemma bfs_loop_nulls (w : world) (request : Request) (rounds : nat) :
  forall (nulls : list BfsNode) (result : list string) (p : process),
  Forall null_frame nulls -> (List.length nulls < rounds)%nat ->
  bfs_loop rounds w request nulls result p
  = Some (match readdir_null w, nulls with
          | NullFaults, _ :: _ => (Faulted, p)
          | _, _ => (Ret result, closed_nulls p
                       (match readdir_null w with
                        | NullFaults => 0
                        | NullEndOfStream => List.length nulls
                        end))
          end).
Proof.
  assert (Hnone : forall p, closed_nulls p 0 = p).
  { intros [t n]. unfold closed_nulls. cbn. now rewrite app_nil_r. }
  induction rounds as [| rounds IH]; intros nulls result p N L; [lia |].
  destruct N as [| current nulls Hc N].
  - cbn. destruct (readdir_null w); now rewrite Hnone.
  - cbn [bfs_loop]. unfold null_frame in Hc. rewrite Hc.
    destruct (readdir_null w) eqn:R; [reflexivity |].
    cbn [List.length] in L. rewrite IH by (assumption || lia). rewrite ?R.
    f_equal. f_equal. unfold closed_nulls, closedir, emit. cbn.
    now rewrite <- app_assoc.
Qed.

Lemma existsb_filter {A} (f : A -> bool) (l : list A) :
  existsb f l = match filter f l with [] => false | _ :: _ => true end.
Proof.
  induction l as [| a l IH]; [reflexivity |].
  cbn [existsb filter]. destruct (f a); [reflexivity | exact IH].
Qed.

Lemma null_frames_null (w : world) (current_path : string) (names : list string) :
  Forall null_frame (null_frames w current_path names).
Proof.
  unfold null_frames. apply Forall_forall. intros n Hn.
  apply in_map_iff in Hn. destruct Hn as (f & <- & _). reflexivity.
Qed.

Lemma null_frames_length (w : world) (current_path : string) (names : list string) :
  (List.length (null_frames w current_path names) <= List.length names)%nat.
Proof. unfold null_frames. rewrite length_map. apply filter_length_le. Qed.

Lemma closed_nulls_readings (k : nat) :
  opened_of (repeat (EvClosedir None) k) = [] /\
  closed_of (repeat (EvClosedir None) k) = [] /\
  stderr_of (repeat (EvClosedir None) k) = [] /\
  stdout_of (repeat (EvClosedir None) k) = [] /\
  children_of (repeat (EvClosedir None) k) = 0%nat.
Proof. induction k as [| k IH]; [repeat split | exact IH]. Qed.

(** A round of the outer loop on a frame with an open stream. *)
Lemma bfs_loop_frame (rounds : nat) (w : world) (request : Request)
    (d : DIR) (current_path : string) (q : list BfsNode)
    (result : list string) (p : process) :
  bfs_loop (S rounds) w request (mkBfsNode (Some d) current_path :: q) result p
  = match read_entries w request current_path (dd_buf d) q result p with
    | (Ret (q', result'), p') =>
        bfs_loop rounds w request q' result' (snd (closedir (Some d) p'))
    | (Exited c, p') => Some (Exited c, p')
    | (Faulted, p') => Some (Faulted, p')
    end.
Proof. reflexivity. Qed.

(** [bfs] on a root that opens: the outcome, and what shows of the walk.
    One stream is opened on the root and one on each of its directories
    that can be opened; the root's stream alone is closed. *)
Lemma bfs_exact (w : world) (request : Request) (names : list string) (p : process) :
  dir_listing w (filePath request) = Some names ->
  exists p1 t,
    bfs w request p
    = ((if walk_faults w (filePath request) names
        then Faulted
        else Ret (immediate_matches w request (filePath request) names)), p1) /\
    trace p1 = (trace p ++ t)%list /\
    opened_of t
    = seq (next_stream p)
        (S (List.length (filter (openable_subdir w (filePath request)) names))) /\
    closed_of t = [next_stream p] /\
    stderr_of t = [] /\ stdout_of t = [] /\ children_of t = 0%nat.
Proof.
  intros Hroot. unfold bfs, bind, opendir. rewrite Hroot.
  cbn [queue_weight dir dd_buf].
  rewrite bfs_loop_frame, read_entries_exact. cbn [app dd_buf].
  rewrite bfs_loop_nulls;
    [| apply null_frames_null
     | pose proof (null_frames_length w (filePath request) names); lia ].
  set (p0 := {| trace := trace p ++ [EvOpendir (filePath request) (Some (next_stream p))];
                next_stream := S (next_stream p) |}).
  destruct (after_entries_trace w (filePath request) names p0)
    as (t1 & T1 & _ & O1 & C1 & E1 & S1 & F1).
  set (p1 := after_entries w (filePath request) names p0) in *.
  set (k := match readdir_null w with
            | NullFaults => 0%nat
            | NullEndOfStream => List.length (null_frames w (filePath request) names)
            end).
  destruct (closed_nulls_readings k) as (O2 & C2 & E2 & S2 & F2).
  assert (Hreadings : forall j,
    let t := (EvOpendir (filePath request) (Some (next_stream p)) :: t1
              ++ EvClosedir (Some (next_stream p)) :: repeat (EvClosedir None) j)%list in
    j = 0%nat \/ j = k ->
    trace (closed_nulls (snd (closedir (Some {| dd_id := next_stream p; dd_buf := names |}) p1)) j)
    = (trace p ++ t)%list /\
    opened_of t
    = seq (next_stream p)
        (S (List.length (filter (openable_subdir w (filePath request)) names))) /\
    closed_of t = [next_stream p] /\
    stderr_of t = [] /\ stdout_of t = [] /\ children_of t = 0%nat).
  { intros j t Hj.
    destruct (closed_nulls_readings j) as (Oj & Cj & Ej & Sj & Fj).
    subst t. split.
    - cbn [closed_nulls closedir emit snd trace option_map dd_id]. rewrite T1.
      subst p0. cbn [trace]. rewrite <- !app_assoc. reflexivity.
    - change (EvOpendir (filePath request) (Some (next_stream p)) :: t1
              ++ EvClosedir (Some (next_stream p)) :: repeat (EvClosedir None) j)%list
        with ([EvOpendir (filePath request) (Some (next_stream p))]
              ++ t1 ++ [EvClosedir (Some (next_stream p))]
              ++ repeat (EvClosedir None) j)%list.
      rewrite !opened_of_app, !closed_of_app, !stderr_of_app, !stdout_of_app,
        !children_of_app, O1, C1, E1, S1, F1, Oj, Cj, Ej, Sj, Fj.
      subst p0. cbn. rewrite app_nil_r. repeat split. }
  unfold walk_faults. rewrite existsb_filter.
  unfold null_frames at 1. subst k.
  destruct (readdir_null w);
    destruct (filter (unopenable_subdir w (filePath request)) names) eqn:U;
    cbn [map].
  - eexists _, _. split; [reflexivity |]. apply (Hreadings 0%nat). now left.
  - eexists _, _. split; [reflexivity |].
    destruct (Hreadings 0%nat) as (HT & HR); [now left |].
    split; [| exact HR]. rewrite <- HT.
    unfold closed_nulls. cbn [trace]. now rewrite app_nil_r.
  - eexists _, _. split; [reflexivity |]. apply Hreadings. now right.
  - eexists _, _. split; [reflexivity |]. apply Hreadings. now right.
Qed.

(** ** The walk as a whole *)

(** The outcome of [bfs], in full.  A root that cannot be opened gives the
    empty vector.  Otherwise the walk faults when [readdir] faults on a null
    stream and a directory of the root cannot be opened; failing that, it
    returns the paths of the root's own entries, "." and ".." apart, that
    are not directories and that [checkStat] accepts, in [readdir] order.
    No entry below a subdirectory is ever among them. *)
Theorem walk_outcome (w : world) (request : Request) (p : process) :
  fst (bfs w request p)
  = match dir_listing w (filePath request) with
    | None => Ret []
    | Some names =>
        if walk_faults w (filePath request) names
        then Faulted
        else Ret (immediate_matches w request (filePath request) names)
    end.
Proof.
  destruct (dir_listing w (filePath request)) as [names |] eqn:D.
  - destruct (bfs_exact w request names p D) as (p1 & t & -> & _). reflexivity.
  - unfold bfs, bind, opendir. rewrite D. reflexivity.
Qed.


(** The streams of a walk, from a fresh process.  On a root that opens,
    the walk opens the root and each directory of the root that can be
    opened, and closes the root's stream once and no other: it ends with as
    many streams open as the root has directories that open.  This holds
    also when the walk faults. *)
Theorem walk_streams (w : world) (request : Request) :
  let t := trace (snd (bfs w request start)) in
  match dir_listing w (filePath request) with
  | Some names =>
      opened_of t
      = seq 0 (S (List.length (filter (openable_subdir w (filePath request)) names))) /\
      closed_of t = [0%nat]
  | None => opened_of t = [] /\ closed_of t = []
  end.
Proof.
  intros t. subst t.
  destruct (dir_listing w (filePath request)) as [names |] eqn:D.
  - destruct (bfs_exact w request names start D) as (p1 & t & -> & T & O & C & _).
    cbn [snd]. rewrite T. cbn [trace start app]. now split.
  - unfold bfs, bind, opendir. rewrite D. split; reflexivity.
Qed.

(** Once the root is open the walk reports nothing: neither an [lstat]
    nor an [opendir] that fails on an entry reaches standard error.  The
    only complaint of a walk is the one about the root. *)
Theorem walk_reports_root_only (w : world) (request : Request) :
  stderr_of (trace (snd (bfs w request start)))
  = match dir_listing w (filePath request) with
    | Some _ => []
    | None => ["Unable to access root directory"]
    end.
Proof.
  destruct (dir_listing w (filePath request)) as [names |] eqn:D.
  - destruct (bfs_exact w request names start D) as (p1 & t & -> & T & _ & _ & E & _).
    cbn [snd]. rewrite T. exact E.
  - unfold bfs, bind, opendir. rewrite D. reflexivity.
Qed.

Lemma stdout_of_lines (files : list string) : stdout_of (map EvStdout files) = files.
Proof.
  induction files as [| file files IH]; [reflexivity |].
  cbn [map]. change (stdout_of (EvStdout file :: map EvStdout files))
    with (file :: stdout_of (map EvStdout files)). now rewrite IH.
Qed.

Lemma stderr_of_lines (files : list string) : stderr_of (map EvStdout files) = [].
Proof. induction files as [| file files IH]; [reflexivity | exact IH]. Qed.

(** The whole program without [-exec], on a root that opens and a walk
    that does not fault: standard output is, line by line and in [readdir]
    order, the root's own entries that are not directories and pass the
    name test; nothing goes to standard error and the exit status is 0. *)
Theorem printed_matches (w : world) (argv : list string) (request : Request)
    (names : list string) :
  command_line argv = Some request ->
  execNeeded request = false ->
  dir_listing w (filePath request) = Some names ->
  walk_faults w (filePath request) names = false ->
  fst (run w argv) = Exited EXIT_SUCCESS /\
  stdout_of (trace (snd (run w argv)))
  = immediate_matches w request (filePath request) names /\
  stderr_of (trace (snd (run w argv))) = [].
Proof.
  intros C X D Hw.
  destruct (command_line_cases argv) as [(request0 & C0 & R & _) | (C0 & _)];
    [| congruence].
  assert (request0 = request) by congruence. subst request0.
  destruct (bfs_exact w request names start D)
    as (p1 & t & E & T & _ & _ & Er & So & _).
  rewrite Hw in E. cbn [trace start app] in T.
  assert (Hrun : run w argv
                 = (Exited EXIT_SUCCESS,
                    {| trace := trace p1 ++ map EvStdout
                                  (immediate_matches w request (filePath request) names);
                       next_stream := next_stream p1 |})).
  { rewrite (R w). unfold bind at 1. rewrite E, X. unfold bind.
    rewrite print_files_trace. reflexivity. }
  rewrite Hrun. cbn [fst snd trace].
  rewrite stdout_of_app, stderr_of_app, T, So, Er, stdout_of_lines, stderr_of_lines.
  repeat split.
Qed.

Lemma printed_matches_witness :
  fst (run tree ["find"; "/r"; "-name"; "a"]) = Exited EXIT_SUCCESS /\
  stdout_of (trace (snd (run tree ["find"; "/r"; "-name"; "a"])))
  = immediate_matches tree (set_filePath (set_name default_Request "a") "/r")
      "/r" ["."; ".."; "a"; "b"; "d"] /\
  stderr_of (trace (snd (run tree ["find"; "/r"; "-name"; "a"]))) = [].
Proof.
  apply (printed_matches tree ["find"; "/r"; "-name"; "a"]
           (set_filePath (set_name default_Request "a") "/r")
           ["."; ".."; "a"; "b"; "d"]); reflexivity.
Defined.



(** The exit status of the program.  A command line [main] refuses ends
    the run with [EXIT_FAILURE]; so does a [fork] that fails when [-exec]
    was asked for.  Every other run whose walk returns ends with
    [EXIT_SUCCESS], whatever was found and whatever the child did. *)
Theorem exit_status (w : world) (argv : list string) :
  fst (run w argv)
  = match command_line argv with
    | None => Exited EXIT_FAILURE
    | Some request =>
        match fst (bfs w request start) with
        | Ret _ =>
            if execNeeded request && negb (fork_ok w)
            then Exited EXIT_FAILURE else Exited EXIT_SUCCESS
        | _ => Faulted
        end
    end.
Proof.
  destruct (command_line_cases argv)
    as [(request & -> & R & _) | (-> & message & R)]; rewrite (R w);
    [| reflexivity].
  destruct (bfs_cases w request start) as (o & p1 & t & E & O & _).
  unfold bind at 1. rewrite E. cbn [fst].
  destruct O as [-> | [files ->]]; [reflexivity |].
  destruct (execNeeded request); cbn [andb].
  - unfold execute. destruct (fork_ok w); [| reflexivity].
    destruct (wait_status w); reflexivity.
  - unfold bind. rewrite print_files_trace. reflexivity.
Qed.

(** ** Numbers, read and written *)

Lemma digit_cases (c : ascii) (d : Z) :
  digit_of c = Some d ->
  In c ["0"; "1"; "2"; "3"; "4"; "5"; "6"; "7"; "8"; "9"]%char.
Proof.
  destruct c as [[] [] [] [] [] [] [] []]; vm_compute; intros H;
    try discriminate; auto 12.
Qed.

Ltac eval_char_tests :=
  repeat match goal with
         | |- context [isspace ?c] =>
             let b := eval vm_compute in (isspace c) in
             change (isspace c) with b
         | |- context [digit_of ?c] =>
             let b := eval vm_compute in (digit_of c) in
             change (digit_of c) with b
         end.

(** [stoll] on a string that begins with a digit, and on one that begins
    with a minus sign and a digit. *)
Lemma stoll_digit_head (c : ascii) (d : Z) (rest : string) :
  digit_of c = Some d ->
  stoll (String c rest)
  = (if (LLONG_MIN <=? read_digits (String c rest) 0)
        && (read_digits (String c rest) 0 <=? LLONG_MAX)
     then Converted (read_digits (String c rest) 0) else OutOfRange) /\
  stoll (String "-" (String c rest))
  = (if (LLONG_MIN <=? - read_digits (String c rest) 0)
        && (- read_digits (String c rest) 0 <=? LLONG_MAX)
     then Converted (- read_digits (String c rest) 0) else OutOfRange).
Proof.
  intros D. apply digit_cases in D. cbn [In] in D.
  repeat (destruct D as [<- | D];
          [split; unfold stoll; cbn [skip_space]; eval_char_tests; reflexivity |]).
  contradiction.
Qed.

Lemma read_digits_app (s t : string) :
  all_digits s = true -> no_digit_ahead t = true ->
  forall acc, read_digits (s ++ t) acc = read_digits s acc.
Proof.
  intros Hs Ht. induction s as [| c s IH]; intros acc.
  - destruct t as [| c t]; [reflexivity |]. cbn in *.
    now destruct (digit_of c).
  - cbn in *. destruct (digit_of c); [now apply IH | discriminate].
Qed.

(** [parseNumber] reads the digits a value begins with and ignores
    whatever follows them: [12abc] is taken for 12. *)
Theorem parseNumber_ignores_what_follows (s t : string) (p : process) :
  s <> "" -> all_digits s = true -> no_digit_ahead t = true ->
  parseNumber (s ++ t) p = parseNumber s p.
Proof.
  intros Hne Hs Ht. unfold parseNumber.
  assert (E : stoll (s ++ t) = stoll s); [| now rewrite E].
  pose proof (read_digits_app s t Hs Ht 0) as R.
  destruct s as [| c s]; [now elim Hne |].
  cbn [all_digits] in Hs. destruct (digit_of c) as [d |] eqn:D; [| discriminate].
  cbn [append] in *.
  rewrite (proj1 (stoll_digit_head c d (s ++ t) D)),
    (proj1 (stoll_digit_head c d s D)), R.
  reflexivity.
Qed.

Lemma parseNumber_ignores_what_follows_witness :
  parseNumber ("12" ++ "abc") start = parseNumber "12" start.
Proof.
  apply (parseNumber_ignores_what_follows "12" "abc" start);
    [discriminate | reflexivity | reflexivity].
Defined.

(** The digits of a decimal numeral, read with an accumulator. *)
Lemma read_digits_uint_acc (d : Decimal.uint) :
  forall acc : positive,
  read_digits (NilEmpty.string_of_uint d) (Z.pos acc)
  = Z.pos (Pos.of_uint_acc d acc).
Proof.
  induction d; intros acc; cbn [NilEmpty.string_of_uint Pos.of_uint_acc];
    [reflexivity | ..];
    (cbn [read_digits]; eval_char_tests; cbv iota beta;
     match goal with
     | |- read_digits _ ?a = Z.pos (Pos.of_uint_acc _ ?b) =>
         replace a with (Z.pos b) by lia
     end;
     apply IHd).
Qed.

Lemma read_digits_uint (d : Decimal.uint) :
  read_digits (NilEmpty.string_of_uint d) 0 = Z.of_N (Pos.of_uint d).
Proof.
  induction d; cbn [NilEmpty.string_of_uint Pos.of_uint]; [reflexivity | ..];
    cbn [read_digits]; eval_char_tests; cbv iota beta;
    try exact IHd;
    match goal with
    | |- read_digits _ ?a = Z.of_N (N.pos (Pos.of_uint_acc _ ?b)) =>
        change a with (Z.pos b)
    end;
    apply read_digits_uint_acc.
Qed.

Lemma uint_head (d : Decimal.uint) :
  d <> Decimal.Nil ->
  exists c v rest,
    NilEmpty.string_of_uint d = String c rest /\ digit_of c = Some v.
Proof.
  destruct d; [now intros H; elim H | ..]; intros _;
    cbn [NilEmpty.string_of_uint]; eexists _, _, _; split; reflexivity.
Qed.

Lemma to_int_small (n : Z) : INT_MIN <= n <= INT_MAX -> to_int n = n.
Proof.
  unfold INT_MIN, INT_MAX, to_int. intros H.
  rewrite Z.mod_small by lia. lia.
Qed.

(** Every [int] written in decimal, as [printf("%d")] writes it, is read
    back by [parseNumber] as itself, without complaint. *)
Theorem parseNumber_decimal (n : Z) (p : process) :
  INT_MIN <= n <= INT_MAX ->
  parseNumber (decimal n) p = (Ret n, p).
Proof.
  intros Hn. unfold parseNumber, decimal.
  assert (Hll : LLONG_MIN <= n <= LLONG_MAX)
    by (unfold INT_MIN, INT_MAX, LLONG_MIN, LLONG_MAX in *; lia).
  assert (E : stoll (NilZero.string_of_int (Z.to_int n)) = Converted n).
  { destruct n as [| q | q]; [reflexivity | ..]; cbn [Z.to_int NilZero.string_of_int].
    - pose proof (Unsigned.to_uint_nonnil q) as Hnil.
      assert (Hs : NilZero.string_of_uint (Pos.to_uint q)
                   = NilEmpty.string_of_uint (Pos.to_uint q))
        by (destruct (Pos.to_uint q); [now elim Hnil | reflexivity ..]).
      rewrite Hs.
      destruct (uint_head _ Hnil) as (c & v & rest & Hc & D).
      pose proof (read_digits_uint (Pos.to_uint q)) as R.
      rewrite Unsigned.of_to in R. rewrite Hc in *.
      rewrite (proj1 (stoll_digit_head c v rest D)), R. cbn [Z.of_N].
      destruct (Z.leb_spec LLONG_MIN (Z.pos q)); [| lia].
      destruct (Z.leb_spec (Z.pos q) LLONG_MAX); [reflexivity | lia].
    - pose proof (Unsigned.to_uint_nonnil q) as Hnil.
      assert (Hs : NilZero.string_of_uint (Pos.to_uint q)
                   = NilEmpty.string_of_uint (Pos.to_uint q))
        by (destruct (Pos.to_uint q); [now elim Hnil | reflexivity ..]).
      rewrite Hs.
      destruct (uint_head _ Hnil) as (c & v & rest & Hc & D).
      pose proof (read_digits_uint (Pos.to_uint q)) as R.
      rewrite Unsigned.of_to in R. rewrite Hc in *.
      rewrite (proj2 (stoll_digit_head c v rest D)), R. cbn [Z.of_N Z.opp].
      destruct (Z.leb_spec LLONG_MIN (Z.neg q)); [| lia].
      destruct (Z.leb_spec (Z.neg q) LLONG_MAX); [reflexivity | lia]. }
  rewrite E. unfold ret. now rewrite to_int_small.
Qed.

Lemma parseNumber_decimal_witness :
  parseNumber (decimal (-2147483648)) start = (Ret (-2147483648), start).
Proof.
  apply (parseNumber_decimal (-2147483648) start).
  unfold INT_MIN, INT_MAX. lia.
Defined.
